(** * merde-cli: object-set computation and response streaming

    A shallow embedding of two Go sources of merde-cli, package [git] (the
    toolchain adapter with [MergePack] and its helpers) and [http.go] of
    package [main] (the request and response streaming), and the properties
    of the natural-language specification checked against it.

    The version-control toolchain is an external process driven through the
    [xc] library.  Neither is part of the repository, so a [Git] value carries
    the behaviour of the binary ([Run]) and of the two [xc] post-processing
    steps the sources chain after it ([TrimSpace], [Split]).  The
    [Describe]/[Describef] calls only label error messages and are left out,
    as is the [context.Context] every function passes on. *)

From Stdlib Require Import ZArith Lia Ascii String DecimalString.
From stdpp Require Import base option list strings gmap.

Open Scope string_scope.
Open Scope list_scope.

(** ** Errors and fallible results *)

(** Go's [error] values.  The sources build them with [fmt.Errorf]; one
    constructor per format string keeps them distinguishable, the arguments
    are the values formatted into the message. *)
Inductive error : Type :=
| ErrExec (msg : string)             (* failure reported by xc / net/http / mime / io / json *)
| ErrUnexpectedLine (line : string)  (* "unexpected line: %s" *)
| ErrUnexpectedType (typ : string)   (* "unexpected object type: %s" *)
| ErrEmptyPath                       (* "unexpected empty path" *)
| ErrShaLength (n : nat)             (* "unexpected sha length: %d" *)
| ErrSubmodules                      (* "changes involving submodules are not supported" *)
| ErrStatus (code : Z) (url body : string)  (* "unexpected status code %d for %s: %s" *)
| ErrVersion (serverVersion : string)   (* "unexpected response version %q, please update this client" *)
| ErrContentType (mediaType : string)   (* "unexpected content type: %s" *)
| ErrPartType (contentType : string).   (* "unexpected multipart content type: %s" *)

(** A Go [(T, error)] pair in which exactly one side is meaningful. *)
Inductive Result (A : Type) : Type :=
| Ok (a : A)
| Err (e : error).
Arguments Ok {A} a.
Arguments Err {A} e.

Definition bind {A B : Type} (r : Result A) (k : A -> Result B) : Result B :=
  match r with
  | Ok a => k a
  | Err e => Err e
  end.

Notation "'try' x := r 'in' k" := (bind r (fun x => k))
  (at level 10, x name, r at level 100, k at level 200).

(** [for _, x := range xs { st, err = body(st, x); if err != nil { return err } }] *)
Fixpoint foldM {A St : Type} (body : St -> A -> Result St) (xs : list A) (st : St)
  : Result St :=
  match xs with
  | [] => Ok st
  | x :: xs' => try st' := body st x in foldM body xs' st'
  end.

(** ** Go string functions used by the sources *)

(** The string literals ["\n"] and ["\x00"]. *)
Definition LF : string := String (Ascii.ascii_of_nat 10) "".
Definition NUL : string := String (Ascii.ascii_of_nat 0) "".

(** [strings.SplitN(s, sep, n)] for a non-empty [sep] and [n > 0]: at most
    [n] pieces, the last one the unsplit remainder.  (Go also caps [n] at
    [len(s)+1], which never changes the result for a non-empty [sep].) *)
Fixpoint SplitN (s sep : string) (n : nat) : list string :=
  match n with
  | 0 => []
  | 1 => [s]
  | S n' =>
      match String.index 0 sep s with
      | None => [s]
      | Some m =>
          String.substring 0 m s
            :: SplitN (String.substring (m + String.length sep)
                         (String.length s - (m + String.length sep)) s) sep n'
      end
  end.

(** [strings.HasPrefix] *)
Definition HasPrefix (s p : string) : bool := String.prefix p s.

(** ** The toolchain adapter (package [git]) *)

(** [type Git struct { bin string }] together with what running [bin]
    through [xc] does. *)
Record Git : Type := {
  (** [baseCommand(ctx).AppendArgs(args...).Stdin(stdin).Run()]: the bytes the
      process wrote to standard output, or the error xc reports (the process
      could not be run, or exited with a code that is not allowed). *)
  Run : list string -> string -> Result string;
  (** xc's [TrimSpace] on a command result. *)
  TrimSpace : string -> string;
  (** xc's [Split(sep)] on a command result. *)
  Split : string -> string -> list string;
}.

(** [....Run().TrimSpace().Split(sep)] *)
Definition RunTrimSplit (g : Git) (args : list string) (stdin sep : string)
  : Result (list string) :=
  try out := Run g args stdin in Ok (Split g (TrimSpace g out) sep).

(** [....Run().Split(sep)] *)
Definition RunSplit (g : Git) (args : list string) (stdin sep : string)
  : Result (list string) :=
  try out := Run g args stdin in Ok (Split g out sep).

(** [....Run().String()] *)
Definition RunString (g : Git) (args : list string) (stdin : string)
  : Result string :=
  Run g args stdin.

(** [MergeBases] returns the merge bases of the given commits. *)
Definition MergeBases (g : Git) (commits : list string) : Result (list string) :=
  RunTrimSplit g (["merge-base"; "--all"] ++ commits) "" LF.

(** One pass through the body of the [for { ... }] loop of
    [UniqueAncestorMergeBase]: either the function returns ([inl]) or the
    loop goes round again with a new [commits] ([inr]). *)
Definition UniqueAncestorMergeBase_body (g : Git) (commits : list string)
  : Result string + list string :=
  match MergeBases g commits with
  | Err e => inl (Err e)
  | Ok bases =>
      match bases with
      | [] => inl (Ok "")
      | [b] => inl (Ok b)
      | _ => inr bases
      end
  end.

(** [UniqueAncestorMergeBase]: the loop has no bound in the source; [fuel]
    bounds the number of passes, and [None] means the bound was reached
    with the loop still running. *)
Fixpoint UniqueAncestorMergeBase (fuel : nat) (g : Git) (commits : list string)
  : option (Result string) :=
  match fuel with
  | 0 => None
  | S fuel' =>
      match UniqueAncestorMergeBase_body g commits with
      | inl r => Some r
      | inr bases => UniqueAncestorMergeBase fuel' g bases
      end
  end.

(** [commitsBetween] returns the commits contained in tips but not in base.
    It includes base. *)
Definition commitsBetween (g : Git) (base : string) (tips : list string)
  : Result (list string) :=
  try commits := RunTrimSplit g (["rev-list"] ++ tips ++ ["--not"; base]) "" LF in
  Ok (commits ++ [base]).

(** The [batch] buffer of [treesReferenced]: one ["%s^{tree}\n"] per commit. *)
Fixpoint treeBatch (commits : list string) : string :=
  match commits with
  | [] => ""
  | commit :: rest => commit +:+ "^{tree}" +:+ LF +:+ treeBatch rest
  end.

Definition treesReferenced (g : Git) (commits : list string) : Result (list string) :=
  RunTrimSplit g ["cat-file"; "--buffer"; "--batch-check=%(objectname)"]
    (treeBatch commits) LF.

(** The local [contents] struct of [varyingPaths]. *)
Record contents : Type := {
  typ : string;   (* blob or tree or commit *)
  sha : string;   (* sha of the object *)
  varies : bool;  (* known to vary? *)
}.

(** Go's zero value of [contents], which a map read of a missing key yields. *)
Definition zeroContents : contents := {| typ := ""; sha := ""; varies := false |}.

(** [pathContents[path]] *)
Definition mapGet (pathContents : gmap string contents) (path : string) : contents :=
  default zeroContents (pathContents !! path).

(** The mutable locals of [varyingPaths]. *)
Record vstate : Type := {
  pathContents : gmap string contents;
  varying : list string;
}.

Definition vstate0 : vstate := {| pathContents := ∅; varying := [] |}.

(** [switch typ { case "blob", "tree", "commit": default: return error }] *)
Definition knownType (t : string) : bool :=
  bool_decide (t = "blob") || bool_decide (t = "tree") || bool_decide (t = "commit").

(** The part of the inner loop body of [varyingPaths] that follows the
    validation of the three fields of a line. *)
Definition observe (st : vstate) (typ0 sha0 path : string) : Result vstate :=
  let c := mapGet (pathContents st) path in
  (* first object for any path is a freebie *)
  if bool_decide (typ c = "") then
    Ok {| pathContents :=
            <[path := {| typ := typ0; sha := sha0; varies := varies c |}]> (pathContents st);
          varying := varying st |}
  else if varies c then
    Ok {| pathContents := pathContents st; varying := varying st ++ [sha0] |}
  (* if there are any mismatches, it varies *)
  else if bool_decide (typ c ≠ typ0) || bool_decide (sha c ≠ sha0) then
    if bool_decide (typ c = "commit") || bool_decide (typ0 = "commit") then
      Err ErrSubmodules
    else
      Ok {| pathContents :=
              <[path := {| typ := typ c; sha := sha c; varies := true |}]> (pathContents st);
            varying := varying st ++ [sha c; sha0] |}
  (* otherwise, it's the same *)
  else Ok st.

(** The body of [for _, line := range lines]. *)
Definition varyingLine (st : vstate) (line : string) : Result vstate :=
  if bool_decide (line = "") then Ok st
  else
    match SplitN line " " 3 with
    | [typ0; sha0; path] =>
        if negb (knownType typ0) then Err (ErrUnexpectedType typ0)
        else if bool_decide (path = "") then Err ErrEmptyPath
        else if bool_decide (String.length sha0 ≠ 40) then Err (ErrShaLength (String.length sha0))
        else observe st typ0 sha0 path
    | _ => Err (ErrUnexpectedLine line)
    end.

(** The [ls-tree] query of [varyingPaths] for one tree. *)
Definition lsTree (g : Git) (tree : string) : Result (list string) :=
  RunSplit g ["ls-tree"; "-r"; "-t"; "-z";
              "--format=%(objecttype) %(objectname) %(path)"; tree] "" NUL.

(** The body of [for _, tree := range trees]. *)
Definition varyingTree (g : Git) (st : vstate) (tree : string) : Result vstate :=
  try lines := lsTree g tree in foldM varyingLine lines st.

(** [varyingPaths] returns the objects that correspond to different contents
    at the same path between the given trees. *)
Definition varyingPaths (g : Git) (trees : list string) : Result (list string) :=
  try st := foldM (varyingTree g) trees vstate0 in Ok (varying st).

(** The [packList] buffer of [packObjects]: every object id followed by a
    newline. *)
Fixpoint packList (objects : list string) : string :=
  match objects with
  | [] => ""
  | obj :: rest => obj +:+ LF +:+ packList rest
  end.

Definition packObjects (g : Git) (objects : list string) : Result string :=
  RunString g ["pack-objects"; "--stdout"; "--delta-base-offset"; "-q"]
    (packList objects).

(** The slice [need] that [MergePack] hands to [packObjects]. *)
Definition needOf (commits trees varying0 : list string) : list string :=
  (([] ++ commits) ++ trees) ++ varying0.

(** [MergePack]; [fuel] bounds the loop of [UniqueAncestorMergeBase]. *)
Definition MergePack (fuel : nat) (g : Git) (main topic : string)
  : option (Result string) :=
  match UniqueAncestorMergeBase fuel g [main; topic] with
  | None => None
  | Some r =>
      Some (try base := r in
            try commits := commitsBetween g base [main; topic] in
            try trees := treesReferenced g commits in
            try varying0 := varyingPaths g trees in
            let need := needOf commits trees varying0 in
            try pack := packObjects g need in
            Ok pack)
  end.

(** The value of [need] when [MergePack] reaches its call of [packObjects]
    (an error if it returns before). *)
Definition MergePack_need (fuel : nat) (g : Git) (main topic : string)
  : option (Result (list string)) :=
  match UniqueAncestorMergeBase fuel g [main; topic] with
  | None => None
  | Some r =>
      Some (try base := r in
            try commits := commitsBetween g base [main; topic] in
            try trees := treesReferenced g commits in
            try varying0 := varyingPaths g trees in
            Ok (needOf commits trees varying0))
  end.

(** ** The transfer protocol client ([http.go]) *)

(** global client api versioning *)
Definition apiRequestVersion : string := "1".
Definition apiResponseVersion : string := "1".

(** A [Response] is a response from the server: a union type between a JSON
    response and a binary response. *)
Record Response : Type := {
  IsJSON : bool;          (* true if this is a JSON response *)
  Stdout : string;        (* write this to stdout *)
  Stderr : string;        (* write this to stderr *)
  ExitCode : Z;           (* if > 0, the client should exit with this exit code *)
  Ref : string;           (* if both non-empty, create ref -> sha *)
  SHA : string;
  Data : option string;   (* binary response: the bytes of the buffer, nil otherwise *)
}.

Definition setIsJSON (r : Response) (b : bool) : Response :=
  {| IsJSON := b; Stdout := Stdout r; Stderr := Stderr r; ExitCode := ExitCode r;
     Ref := Ref r; SHA := SHA r; Data := Data r |}.

(** [&Response{Data: buf}] *)
Definition binaryResponse (buf : string) : Response :=
  {| IsJSON := false; Stdout := ""; Stderr := ""; ExitCode := 0%Z;
     Ref := ""; SHA := ""; Data := Some buf |}.

(** An [io.Reader] read to its end: the bytes it delivers, and the error
    that ends it when that is not [io.EOF]. *)
Record Reader : Type := {
  bytes : string;
  failure : option error;
}.

(** [io.Copy(buf, p)]: the contents of [buf] afterwards. *)
Definition Copy (p : Reader) : Result string :=
  match failure p with
  | Some e => Err e
  | None => Ok (bytes p)
  end.

(** A [multipart.Part]: its [Content-Type] header and its body. *)
Record Part : Type := {
  partContentType : string;   (* p.Header.Get("Content-Type") *)
  partBody : Reader;
}.

Record Request : Type := {
  Method : string;
  URL : string;
  reqHeader : list (string * string);
  reqBody : string;
}.

(** [http.Response] *)
Record HttpResponse : Type := {
  StatusCode : Z;
  Header : string -> string;   (* resp.Header.Get: the empty string when absent *)
  Body : Reader;
}.

(** What the Go standard library does for [doRequest]. *)
Record Net : Type := {
  (** [http.DefaultClient.Do] *)
  Do : Request -> Result HttpResponse;
  (** [mime.ParseMediaType]: the media type and the lookup of its parameters *)
  ParseMediaType : string -> Result (string * (string -> string));
  (** [multipart.NewReader(body, boundary)] and the results of its successive
      [NextPart] calls: the parts up to [io.EOF] (the end of the list); an
      [Err] is a call that failed with another error. *)
  NewReader : Reader -> string -> list (Result Part);
  (** [json.NewDecoder(p).Decode(&r)] on a zero [r] *)
  Decode : Reader -> Result Response;
}.

(** The pair of a [Response] pointer and an [error] passed to [yield]. *)
Definition Item : Type := option Response * option error.

Section Stream.

(** The consumer of the [iter.Seq2]: its own state [St], and [yield], which
    reports whether the consumer wants more. *)
Context {St : Type}.
Variable yield : St -> Item -> St * bool.

(** [yield(nil, err); return] *)
Definition fail (s : St) (e : error) : St := (yield s (None, Some e)).1.

(** The [for { p, err := mr.NextPart() ... }] loop of [doRequest].  The
    number counts the parts [NextPart] has handed out. *)
Fixpoint partsLoop (n : Net) (parts : list (Result Part)) (s : St) (consumed : nat)
  : St * nat :=
  match parts with
  | [] => (s, consumed)
  | Err e :: _ => (fail s e, consumed)
  | Ok p :: rest =>
      if bool_decide (partContentType p = "application/json") then
        match Decode n (partBody p) with
        | Err e => (fail s e, S consumed)
        | Ok r =>
            let '(s', more) := yield s (Some (setIsJSON r true), None) in
            if more then partsLoop n rest s' (S consumed) else (s', S consumed)
        end
      else if bool_decide (partContentType p = "application/octet-stream") then
        match Copy (partBody p) with
        | Err e => (fail s e, S consumed)
        | Ok buf =>
            let '(s', more) := yield s (Some (binaryResponse buf), None) in
            if more then partsLoop n rest s' (S consumed) else (s', S consumed)
        end
      else (fail s (ErrPartType (partContentType p)), S consumed)
  end.

Definition doRequest (n : Net) (req : Request) (s : St) : St * nat :=
  match Do n req with
  | Err e => (fail s e, 0)
  | Ok resp =>
      if bool_decide (StatusCode resp = 200%Z) then
        let serverVersion := Header resp "Merde-Server-API-Version" in
        if bool_decide (serverVersion ≠ apiResponseVersion) then
          (fail s (ErrVersion serverVersion), 0)
        else
          match ParseMediaType n (Header resp "Content-Type") with
          | Err e => (fail s e, 0)
          | Ok (mediaType, params) =>
              if negb (HasPrefix mediaType "multipart/") then
                (fail s (ErrContentType mediaType), 0)
              else partsLoop n (NewReader n (Body resp) (params "boundary")) s 0
          end
      else
        (fail s (ErrStatus (StatusCode resp) (URL req) (bytes (Body resp))), 0)
  end.

End Stream.

(** The consumer that pulls every item and keeps them in arrival order. *)
Definition record (log : list Item) (it : Item) : list Item * bool :=
  (log ++ [it], true).

(** Every item [doRequest] yields to a consumer that never stops. *)
Definition items (n : Net) (req : Request) : list Item :=
  (doRequest record n req []).1.

(** The messages and the errors among yielded items. *)
Definition messages (l : list Item) : list Response := omap fst l.
Definition errors (l : list Item) : list error := omap snd l.

(** ** What the listings say

    The vocabulary for the results of [varyingPaths]: the entries that the
    lines of the listings carry, without regard to their order. *)

(** A set of entries [(typ, sha, path)]. *)
Definition entries : Type := string -> string -> string -> Prop.

(** [line] carries the entry: it is not skipped and splits into these three
    fields. *)
Definition lineEntry (line : string) : entries :=
  fun typ0 sha0 path => line <> "" /\ SplitN line " " 3 = [typ0; sha0; path].

(** The entries of a listing. *)
Definition seen (lines : list string) : entries :=
  fun typ0 sha0 path => exists line, line ∈ lines /\ lineEntry line typ0 sha0 path.

(** The entries of the listings of [trees]. *)
Definition seenIn (g : Git) (trees : list string) : entries :=
  fun typ0 sha0 path =>
    exists tree lines, tree ∈ trees /\ lsTree g tree = Ok lines /\ seen lines typ0 sha0 path.

Definition extend (E : entries) (typ0 sha0 path : string) : entries :=
  fun t s p => E t s p \/ (t = typ0 /\ s = sha0 /\ p = path).

Definition union (E E' : entries) : entries :=
  fun t s p => E t s p \/ E' t s p.

(** Two entries for [path] disagree in kind or id. *)
Definition variesAt (E : entries) (path : string) : Prop :=
  exists t1 s1 t2 s2, E t1 s1 path /\ E t2 s2 path /\ (t1 <> t2 \/ s1 <> s2).

(** What the locals of [varyingPaths] record about the entries [E]
    processed so far. *)
Record vinv (E : entries) (st : vstate) : Prop := {
  vinv_unseen : forall path,
    pathContents st !! path = None -> forall t s, ~ E t s path;
  vinv_typ : forall path c,
    pathContents st !! path = Some c -> typ c <> "";
  vinv_base : forall path c,
    pathContents st !! path = Some c -> E (typ c) (sha c) path;
  vinv_same : forall path c,
    pathContents st !! path = Some c -> varies c = false ->
    forall t s, E t s path -> t = typ c /\ s = sha c;
  vinv_varies : forall path c,
    pathContents st !! path = Some c -> varies c = true -> variesAt E path;
  vinv_regular : forall path c,
    pathContents st !! path = Some c -> varies c = true ->
    typ c <> "commit" /\
    exists t s, E t s path /\ t <> "commit" /\ (t <> typ c \/ s <> sha c);
  vinv_varying : forall x,
    x ∈ varying st <-> exists path t, variesAt E path /\ E t x path;
}.

(** A line that the validation in [varyingPaths] lets through: the empty
    line that ends a listing, or three fields with a known kind, a
    40-character id and a path. *)
Definition wellFormed (line : string) : Prop :=
  line = "" \/
  exists t s p, lineEntry line t s p /\ knownType t = true /\ p <> "" /\ String.length s = 40.

(** ** Commit graphs

    What the toolchain's [rev-list] is about: [parents c] are the parent
    commits of [c], and a commit reaches itself and whatever its parents
    reach. *)
Inductive reachable (parents : string -> list string) : string -> string -> Prop :=
| reach_self (c : string) : reachable parents c c
| reach_parent (c p d : string) :
    p ∈ parents c -> reachable parents p d -> reachable parents c d.

(** A part that [doRequest] turns into a message: one of the two known
    types, with a body that decodes, respectively reads, without error. *)
Definition decodable (n : Net) (q : Result Part) : Prop :=
  match q with
  | Ok p =>
      (partContentType p = "application/json" /\ exists r, Decode n (partBody p) = Ok r) \/
      (partContentType p = "application/octet-stream" /\ failure (partBody p) = None)
  | Err _ => False
  end.

Definition isMessage (it : Item) : Prop := exists r, it = (Some r, None).

(** ** More of the toolchain adapter (package [git]) *)

(** [strings.Contains] *)
Definition Contains (s substr : string) : bool :=
  match String.index 0 substr s with
  | Some _ => true
  | None => false
  end.

(** [....Run().TrimSpace().String()] *)
Definition RunTrimString (g : Git) (args : list string) (stdin : string)
  : Result string :=
  try out := Run g args stdin in Ok (TrimSpace g out).

(** [....Run().Wait()]: only the error is kept. *)
Definition RunWait (g : Git) (args : list string) (stdin : string) : option error :=
  match Run g args stdin with
  | Ok _ => None
  | Err e => Some e
  end.

Definition Version (g : Git) : Result string := RunTrimString g ["--version"] "".

Definition GitDir (g : Git) : Result string :=
  RunTrimString g ["rev-parse"; "--git-dir"] "".

(** The body of [for _, u := range urls] in [Remotes]. *)
Definition remotesURL (all : list string) (u : string) : list string :=
  if negb (Contains u "github.com") && negb (Contains u "gitlab.com") then all
  else if negb (bool_decide (u ∈ all)) then all ++ [u]
  else all.

(** The body of [for _, remote := range remotes] in [Remotes]: a remote
    whose URLs cannot be listed is passed over. *)
Definition remotesRemote (g : Git) (all : list string) (remote : string) : list string :=
  match RunTrimSplit g ["remote"; "get-url"; "--all"; remote] "" LF with
  | Err _ => all
  | Ok urls => foldl remotesURL all urls
  end.

(** [Remotes] returns all remote urls. *)
Definition Remotes (g : Git) : Result (list string) :=
  try remotes := RunTrimSplit g ["remote"] "" LF in
  Ok (foldl (remotesRemote g) [] remotes).

(** [ResolveRef] resolves a refName to a commit hash. *)
Definition ResolveRef (g : Git) (refName : string) : Result string :=
  RunTrimString g ["rev-parse"; refName] "".

(** [fmt.Sprintf("create %s\000%s\000", refName, sha)] *)
Definition createRefStdin (refName sha0 : string) : string :=
  "create " +:+ refName +:+ NUL +:+ sha0 +:+ NUL.

(** [CreateRef] creates refName pointing to sha. *)
Definition CreateRef (g : Git) (refName sha0 : string) : option error :=
  RunWait g ["update-ref"; "--stdin"; "-z"] (createRefStdin refName sha0).

(** [AbbrevRef] resolves a refName to a short, unambiguous ref; if the
    refName cannot be shortened, it resolves it to a commit hash. *)
Definition AbbrevRef (g : Git) (refName : string) : Result string :=
  try out := RunTrimString g ["rev-parse"; "--abbrev-ref=loose"; refName] "" in
  if bool_decide (out = "") || bool_decide (out = refName) then ResolveRef g refName
  else Ok out.

(** [UnpackObjects] on the bytes of the buffer. *)
Definition UnpackObjects (g : Git) (pack : string) : option error :=
  RunWait g ["unpack-objects"; "-q"] pack.

(** A run of the toolchain binary as the operating system sees it: the
    arguments and the standard input go in, an exit status and the bytes of
    standard output come out. *)
Definition process : Type := list string -> string -> Z * string.

(** The text of Go's error for a process that exited with [status]. *)
Definition exitStatus (status : Z) : string :=
  "exit status " +:+ NilZero.string_of_int (Z.to_int status).

(** [Run] of the command library [xc] over a process.  The library is not
    part of this repository; what is taken from it here is what the call
    sites rely on: a run whose exit status is not 0 is a failure, unless
    [AllowExitCodes] lists the status.  ([HasUpstream] lists 128, for a
    query it expects to fail; no other function of the package lists any.) *)
Definition xcRun (allowed : list Z) (proc : process) (args : list string) (stdin : string)
  : Result string :=
  let '(status, out) := proc args stdin in
  if bool_decide (status = 0%Z) || bool_decide (status ∈ allowed) then Ok out
  else Err (ErrExec (exitStatus status)).

(** The toolchain [g] is the binary [proc], run with no exit code allowed. *)
Definition runs (g : Git) (proc : process) : Prop :=
  forall args stdin, Run g args stdin = xcRun [] proc args stdin.

(** A toolchain together with what [Run] does once [AllowExitCodes(codes...)]
    is chained on, which [HasUpstream] needs: the listed exit codes are then
    no failures. *)
Record GitX : Type := {
  plain :> Git;
  RunAllowing : list Z -> list string -> string -> Result string;
}.

(** [HasUpstream]: whether the ref has an upstream. *)
Definition HasUpstream (g : GitX) (refName : string) : Result bool :=
  try out := RunAllowing g [128%Z] ["rev-parse"; "--verify"; refName +:+ "@{upstream}"] "" in
  Ok (negb (bool_decide (TrimSpace g out = ""))).

(** ** The commands (package [main]) *)

(** The errors of package [main]: those passed on from the layers below,
    and those made with [fmt.Errorf], kept as their message. *)
Inductive cliError : Type :=
| FromBelow (e : error)
| Errorf (msg : string).

Inductive Try (A : Type) : Type :=
| Done (a : A)
| Fail (e : cliError).
Arguments Done {A} a.
Arguments Fail {A} e.

(** The [switch len(args)] of [mainTopic]: the refs named on the command
    line, [""] for one that is not. *)
Definition mainTopicArgs (verb : string) (args : list string) : Try (string * string) :=
  match args with
  | [] => Done ("", "")
  | [a] => Done (a, "")
  | [a; b] =>
      if bool_decide (verb = "merge") then
        Fail (Errorf "merde merge takes at most 1 argument")
      else Done (a, b)
  | _ => Fail (Errorf ("too many arguments to merde " +:+ verb))
  end.

(** [mainTopic] returns the main and topic refs, given args. *)
Definition mainTopic (g : GitX) (verb : string) (args : list string)
  : Try (string * string) :=
  match mainTopicArgs verb args with
  | Fail e => Fail e
  | Done (mainRef, topicRef) =>
      match (if bool_decide (topicRef = "") then AbbrevRef g "HEAD" else Ok topicRef) with
      | Err e => Fail (FromBelow e)
      | Ok topicRef =>
          if bool_decide (mainRef = "") then
            match HasUpstream g topicRef with
            | Err e => Fail (FromBelow e)
            | Ok false =>
                Fail (Errorf ("no upstream set for " +:+ topicRef +:+
                              ", please explicitly specify a main branch: merde " +:+
                              verb +:+ " <main>"))
            | Ok true =>
                match AbbrevRef g (topicRef +:+ "@{upstream}") with
                | Err e => Fail (FromBelow e)
                | Ok upstream => Done (upstream, topicRef)
                end
            end
          else Done (mainRef, topicRef)
      end
  end.

(** The file system as [requireCleanGitStatus] uses it. *)
Record FS : Type := {
  Join : string -> string -> string;   (* filepath.Join of two elements *)
  Exists : string -> bool;             (* os.Stat returns a nil error *)
}.

(** The map [filesReason]. *)
Definition filesReason : list (string * string) :=
  [("MERGE_HEAD", "merge is in progress");
   ("REBASE_HEAD", "rebase is in progress");
   ("CHERRY_PICK_HEAD", "cherry-pick is in progress");
   ("REVERT_HEAD", "revert is in progress")].

(** [for file, reason := range filesReason].  Go leaves the order in which
    the entries of a map are visited open; [order] is the order of one
    run. *)
Fixpoint statLoop (fs : FS) (gitDir : string) (order : list (string * string))
  : Try unit :=
  match order with
  | [] => Done tt
  | (file, reason) :: rest =>
      if Exists fs (Join fs gitDir file) then Fail (Errorf ("cannot proceed: " +:+ reason))
      else statLoop fs gitDir rest
  end.

(** [requireCleanGitStatus] checks that the git status is sufficiently clean
    for a deconflict operation. *)
Definition requireCleanGitStatus (fs : FS) (order : list (string * string)) (g : Git)
  : Try unit :=
  match GitDir g with
  | Err e => Fail (FromBelow e)
  | Ok gitDir => statLoop fs gitDir order
  end.

(** What a command does to the outside, in order. *)
Inductive event : Type :=
| WroteStdout (text : string)                       (* fmt.Print *)
| WroteStderr (text : string)                       (* fmt.Fprint(os.Stderr, ...) *)
| Invoked (args : list string) (stdin : string).    (* a run of the toolchain *)

(** How a piece of code that may call [os.Exit] ends. *)
Inductive Outcome (A : Type) : Type :=
| Returns (a : A)
| Fails (e : error)
| Exits (code : Z)       (* os.Exit(code): nothing runs after it *)
| Panics.                (* a nil pointer is dereferenced *)
Arguments Returns {A} a.
Arguments Fails {A} e.
Arguments Exits {A} code.
Arguments Panics {A}.

(** [Process] auto-handles json responses and reports whether it was
    processed. *)
Definition Process (r : Response) (g : Git) (log : list event)
  : list event * Outcome bool :=
  if negb (IsJSON r) then (log, Returns false)
  else
    let create := negb (bool_decide (Ref r = "")) && negb (bool_decide (SHA r = "")) in
    let log1 :=
      if create then
        log ++ [Invoked ["update-ref"; "--stdin"; "-z"] (createRefStdin (Ref r) (SHA r))]
      else log in
    match (if create then CreateRef g (Ref r) (SHA r) else None) with
    | Some e => (log1, Fails e)
    | None =>
        let log2 :=
          if negb (bool_decide (Stdout r = "")) then log1 ++ [WroteStdout (Stdout r)]
          else log1 in
        let log3 :=
          if negb (bool_decide (Stderr r = "")) then log2 ++ [WroteStderr (Stderr r)]
          else log2 in
        if (0 <? ExitCode r)%Z then (log3, Exits (ExitCode r)) else (log3, Returns true)
    end.

(** A function that ranges over the response stream: what it has done so
    far, and how it ended once a loop body has left it. *)
Record Caller : Type := {
  events : list event;
  ended : option (Outcome unit);
}.

Definition caller0 : Caller := {| events := []; ended := None |}.

Definition leave (log : list event) (o : Outcome unit) : Caller * bool :=
  ({| events := log; ended := Some o |}, false).

(** The loop body of [doRoot], [doAuth] and [doHelp]:
    [if err != nil { return err }; _, err := part.Process(ctx, cfg); if err != nil { return err }]. *)
Definition ignoringBody (g : Git) (st : Caller) (it : Item) : Caller * bool :=
  match it with
  | (_, Some e) => leave (events st) (Fails e)
  | (None, None) => leave (events st) Panics
  | (Some part, None) =>
      match Process part g (events st) with
      | (log, Returns _) => ({| events := log; ended := None |}, true)
      | (log, Fails e) => leave log (Fails e)
      | (log, Exits code) => leave log (Exits code)
      | (log, Panics) => leave log Panics
      end
  end.

(** The loop body of [processDeconflictRequest]: a part that [Process] did
    not handle is binary data, and its git objects are unpacked. *)
Definition unpackingBody (g : Git) (st : Caller) (it : Item) : Caller * bool :=
  match it with
  | (_, Some e) => leave (events st) (Fails e)
  | (None, None) => leave (events st) Panics
  | (Some part, None) =>
      match Process part g (events st) with
      | (log, Returns true) => ({| events := log; ended := None |}, true)
      | (log, Returns false) =>
          match Data part with
          | None => leave log Panics
          | Some pack =>
              let log' := log ++ [Invoked ["unpack-objects"; "-q"] pack] in
              match UnpackObjects g pack with
              | Some e => leave log' (Fails e)
              | None => ({| events := log'; ended := None |}, true)
              end
          end
      | (log, Fails e) => leave log (Fails e)
      | (log, Exits code) => leave log (Exits code)
      | (log, Panics) => leave log Panics
      end
  end.

(** [parts := doRequest(req); for part, err := range parts { body }; return nil]:
    the events, how the function ends, and the parts the stream handed out. *)
Definition rangeOver (body : Caller -> Item -> Caller * bool) (n : Net) (req : Request)
  : list event * Outcome unit * nat :=
  let '(st, consumed) := doRequest body n req caller0 in
  (events st, default (Returns tt) (ended st), consumed).

(** [doRoot], [doAuth] and [doHelp] from the request on. *)
Definition doRoot_range (g : Git) (n : Net) (req : Request) : list event * Outcome unit * nat :=
  rangeOver (ignoringBody g) n req.

(** [processDeconflictRequest] from the request on. *)
Definition processDeconflictRequest_range (g : Git) (n : Net) (req : Request)
  : list event * Outcome unit * nat :=
  rangeOver (unpackingBody g) n req.

(** An item that carries a message as [doRequest] makes them: tagged as
    JSON, or a binary response that holds nothing but its data. *)
Definition shapedMessage (it : Item) : Prop :=
  exists r, it = (Some r, None) /\ (IsJSON r = true \/ exists buf, r = binaryResponse buf).

(** The item that [doRequest] makes of a part: the decoded document tagged
    as JSON, or the bytes of the part as binary data. *)
Definition partMessage (n : Net) (q : Result Part) (it : Item) : Prop :=
  exists p,
    q = Ok p /\
    ((partContentType p = "application/json" /\
      exists r, Decode n (partBody p) = Ok r /\ it = (Some (setIsJSON r true), None)) \/
     (partContentType p = "application/octet-stream" /\
      failure (partBody p) = None /\
      it = (Some (binaryResponse (bytes (partBody p))), None))).

(** Membership in a list that is written out. *)
Ltac pick_elem :=
  repeat first [ apply list_elem_of_here | apply list_elem_of_further ].

(** ** A fake toolchain

    A table-driven [Git] for running the functions above on concrete
    repositories: [Run] looks the invocation up in a table of canned
    outputs and fails for any other invocation. *)
Module Fake.

Definition isSpace (c : ascii) : bool :=
  let n := Ascii.nat_of_ascii c in
  (n =? 32)%nat || ((9 <=? n)%nat && (n <=? 13)%nat).

Fixpoint trimLeft (s : string) : string :=
  match s with
  | String c s' => if isSpace c then trimLeft s' else s
  | EmptyString => EmptyString
  end.

Definition trimSpace (s : string) : string :=
  String.rev (trimLeft (String.rev (trimLeft s))).

(** All pieces of [s] between occurrences of [sep]; no piece at all for
    empty output. *)
Definition split (s sep : string) : list string :=
  if bool_decide (s = "") then [] else SplitN s sep (S (String.length s)).

Definition invocation : Type := list string * string.

Fixpoint lookup (table : list (invocation * string)) (i : invocation)
  : Result string :=
  match table with
  | [] => Err (ErrExec "exit status 128")
  | (j, out) :: table' => if bool_decide (i = j) then Ok out else lookup table' i
  end.

Definition git (table : list (invocation * string)) : Git :=
  {| Run := fun args stdin => lookup table (args, stdin);
     TrimSpace := trimSpace;
     Split := split |}.

(** A toolchain on which every invocation succeeds with the same output. *)
Definition constant (out : string) : Git :=
  {| Run := fun _ _ => Ok out; TrimSpace := trimSpace; Split := split |}.

(** A 40-character object id made of one repeated character. *)
Definition oid (c : ascii) : string := string_of_list_ascii (replicate 40 c).

(** One record of [ls-tree -z --format=%(objecttype) %(objectname) %(path)]. *)
Definition entry (typ0 sha0 path : string) : string :=
  typ0 +:+ " " +:+ sha0 +:+ " " +:+ path +:+ NUL.

Definition lsTreeCmd (tree : string) : invocation :=
  (["ls-tree"; "-r"; "-t"; "-z";
    "--format=%(objecttype) %(objectname) %(path)"; tree], "").

End Fake.

(** ** Example repositories and responses *)
Module Examples.
Import Fake.

(** Three trees that disagree at [README]: a blob in the first two, a
    nested-repository reference in the third. *)
Definition submoduleRepo : Git := git [
  (lsTreeCmd "t1", entry "blob" (oid "a") "README" +:+ entry "tree" (oid "d") "dir");
  (lsTreeCmd "t2", entry "blob" (oid "b") "README" +:+ entry "tree" (oid "d") "dir");
  (lsTreeCmd "t3", entry "commit" (oid "c") "README" +:+ entry "tree" (oid "d") "dir")].

(** A base commit [cB] with one commit on each side: [cM] rewrites [NOTES],
    [cT] rewrites [README]. *)
Definition cB : string := oid "0".
Definition cM : string := oid "1".
Definition cT : string := oid "2".
Definition tB : string := oid "4".
Definition tM : string := oid "5".
Definition tT : string := oid "6".

Definition forkedRepo : Git := git [
  ((["merge-base"; "--all"; cM; cT], ""), cB +:+ LF);
  ((["rev-list"; cM; cT; "--not"; cB], ""), cM +:+ LF +:+ cT +:+ LF);
  ((["cat-file"; "--buffer"; "--batch-check=%(objectname)"], treeBatch [cM; cT; cB]),
   tM +:+ LF +:+ tT +:+ LF +:+ tB +:+ LF);
  (lsTreeCmd tM, entry "blob" (oid "a") "README" +:+ entry "blob" (oid "y") "NOTES");
  (lsTreeCmd tT, entry "blob" (oid "b") "README" +:+ entry "blob" (oid "x") "NOTES");
  (lsTreeCmd tB, entry "blob" (oid "a") "README" +:+ entry "blob" (oid "x") "NOTES")].

(** Criss-cross history: the tips [a] and [b] have the two merge bases [c]
    and [d], whose only merge base is [e]. *)
Definition crissCross : Git := git [
  ((["merge-base"; "--all"; "a"; "b"], ""), "c" +:+ LF +:+ "d" +:+ LF);
  ((["merge-base"; "--all"; "c"; "d"], ""), "e" +:+ LF)].

Definition crissCrossRank (commits : list string) : nat :=
  if bool_decide (commits = ["a"; "b"]) then 1 else 0.

(** Two root commits [A] and [B] without a common ancestor, as git answers
    for them: [merge-base] prints nothing and exits with status 1, and what
    else is asked here is fatal, with status 128. *)
Definition disjointHistories : process :=
  fun args _ =>
    if bool_decide (args = ["merge-base"; "--all"; "A"; "B"]) then (1%Z, "")
    else (128%Z, "").

Definition disjointRepo : Git :=
  {| Run := xcRun [] disjointHistories; TrimSpace := trimSpace; Split := split |}.



(** A topic commit [T] on top of the base [B]. *)
Definition linearParents (c : string) : list string :=
  if bool_decide (c = "T") then ["B"] else [].

Definition linear : Git := git [
  ((["rev-list"; "T"; "--not"; "B"], ""), "T" +:+ LF)].

(** A batch check that reports a name it could not resolve, the way
    [cat-file --batch-check] does, and exits successfully. *)
Definition missingTree : Git := git [
  ((["cat-file"; "--buffer"; "--batch-check=%(objectname)"], treeBatch ["deadbeef"]),
   "deadbeef^{tree} missing" +:+ LF)].

(** Responses with status 200 that announce the protocol version [ver]. *)
Definition reader (b : string) : Reader := {| bytes := b; failure := None |}.

Definition respWith (ver : string) : HttpResponse :=
  {| StatusCode := 200%Z;
     Header := fun h =>
       if bool_decide (h = "Merde-Server-API-Version") then ver
       else if bool_decide (h = "Content-Type") then "multipart/mixed; boundary=XX"
       else "";
     Body := reader "" |}.

Definition textResponse (out : string) : Response :=
  {| IsJSON := false; Stdout := out; Stderr := ""; ExitCode := 0%Z;
     Ref := ""; SHA := ""; Data := None |}.

(** A network on which every request is answered by [resp], whose
    multipart body holds [parts], and whose JSON documents are read as
    the text for standard output. *)
Definition net (resp : HttpResponse) (parts : list (Result Part)) : Net :=
  {| Do := fun _ => Ok resp;
     ParseMediaType := fun _ => Ok ("multipart/mixed", fun _ => "XX");
     NewReader := fun _ _ => parts;
     Decode := fun rd =>
       match failure rd with
       | Some e => Err e
       | None => Ok (textResponse (bytes rd))
       end |}.

Definition getRoot : Request :=
  {| Method := "GET"; URL := "/cli/root"; reqHeader := []; reqBody := "" |}.

Definition jsonPart (doc : string) : Part :=
  {| partContentType := "application/json"; partBody := reader doc |}.

Definition binaryPart (b : string) : Part :=
  {| partContentType := "application/octet-stream"; partBody := reader b |}.

Definition charsetPart (doc : string) : Part :=
  {| partContentType := "application/json; charset=utf-8"; partBody := reader doc |}.

(** One line of a listing, as [Split] hands it to [varyingPaths]. *)
Definition row (typ0 sha0 path : string) : string :=
  typ0 +:+ " " +:+ sha0 +:+ " " +:+ path.

(** Two trees that differ in [README] only, and the same two trees listed
    in another order. *)
Definition mixedRepo : Git := git [
  (lsTreeCmd "t1", entry "blob" (oid "a") "README" +:+ entry "blob" (oid "x") "my notes.txt");
  (lsTreeCmd "t2", entry "blob" (oid "b") "README" +:+ entry "blob" (oid "x") "my notes.txt")].

Definition mixedRepoShuffled : Git := git [
  (lsTreeCmd "t1", entry "blob" (oid "x") "my notes.txt" +:+ entry "blob" (oid "a") "README");
  (lsTreeCmd "t2", entry "blob" (oid "x") "my notes.txt" +:+ entry "blob" (oid "b") "README")].

(** Two trees that are the same throughout. *)
Definition sameRepo : Git := git [
  (lsTreeCmd "t1", entry "blob" (oid "a") "README");
  (lsTreeCmd "t2", entry "blob" (oid "a") "README")].

(** Three remotes: two that share a URL, one of them with two more URLs,
    and one whose URLs cannot be listed. *)
Definition hubURL : string := "https://github.com/merde-bot/merde-cli".
Definition labURL : string := "git@gitlab.com:me/merde-cli.git".

Definition withRemotes : Git := git [
  ((["remote"], ""), "origin" +:+ LF +:+ "fork" +:+ LF +:+ "backup" +:+ LF);
  ((["remote"; "get-url"; "--all"; "origin"], ""), hubURL +:+ LF);
  ((["remote"; "get-url"; "--all"; "fork"], ""),
   hubURL +:+ LF +:+ labURL +:+ LF +:+ "ssh://example.org/me.git" +:+ LF)].

(** A checkout of [topic], which tracks [origin/main]. *)
Definition refsTable : list (Fake.invocation * string) := [
  ((["rev-parse"; "--abbrev-ref=loose"; "HEAD"], ""), "topic" +:+ LF);
  ((["rev-parse"; "--verify"; "topic@{upstream}"], ""), oid "1" +:+ LF);
  ((["rev-parse"; "--abbrev-ref=loose"; "topic@{upstream}"], ""), "origin/main" +:+ LF);
  ((["rev-parse"; "--git-dir"], ""), ".git" +:+ LF)].

Definition refsRepo : GitX :=
  {| plain := git refsTable;
     RunAllowing := fun _ args stdin => Fake.lookup refsTable (args, stdin) |}.

(** A git directory in which a merge is under way. *)
Definition mergingFS : FS :=
  {| Join := fun dir file => dir +:+ "/" +:+ file;
     Exists := fun path => bool_decide (path = ".git/MERGE_HEAD") |}.

(** A response with another status. *)
Definition respStatus (code : Z) (body : string) : HttpResponse :=
  {| StatusCode := code; Header := fun _ => ""; Body := reader body |}.

(** A network like [net] whose JSON documents all decode to the directive
    to print a text and exit with status 2. *)
Definition directive : Response :=
  {| IsJSON := false; Stdout := "giving up"; Stderr := ""; ExitCode := 2%Z;
     Ref := ""; SHA := ""; Data := None |}.

Definition exitNet (parts : list (Result Part)) : Net :=
  {| Do := fun _ => Ok (respWith "1");
     ParseMediaType := fun _ => Ok ("multipart/mixed", fun _ => "XX");
     NewReader := fun _ _ => parts;
     Decode := fun _ => Ok directive |}.

End Examples.

(** * Properties *)

(** ** Results *)

Lemma bind_Ok {A B : Type} (r : Result A) (k : A -> Result B) (b : B) :
  bind r k = Ok b <-> exists a, r = Ok a /\ k a = Ok b.
Proof.
  destruct r as [a|e]; simpl; split.
  - eauto.
  - intros (a' & Ha & Hk). by inversion Ha; subst.
  - discriminate.
  - intros (a' & Ha & _). discriminate.
Qed.

Lemma bind_Err {A B : Type} (r : Result A) (k : A -> Result B) (e : error) :
  bind r k = Err e <-> r = Err e \/ exists a, r = Ok a /\ k a = Err e.
Proof.
  destruct r as [a|e']; simpl; split.
  - eauto.
  - intros [H | (a' & Ha & Hk)]; [discriminate | by inversion Ha; subst].
  - intros H. left. by inversion H.
  - intros [H | (a' & Ha & _)]; [by inversion H | discriminate].
Qed.

Lemma foldM_app {A St : Type} (body : St -> A -> Result St) (xs ys : list A) (st : St) :
  foldM body (xs ++ ys) st = try st' := foldM body xs st in foldM body ys st'.
Proof.
  revert st. induction xs as [|x xs IH]; intros st; simpl; [done|].
  destruct (body st x) as [st'|e]; simpl; [apply IH | done].
Qed.

(** ** Ancestor resolver *)

Lemma UniqueAncestorMergeBase_fuel_mono (g : Git) (fuel fuel' : nat) (commits : list string)
    (r : Result string) :
  fuel <= fuel' ->
  UniqueAncestorMergeBase fuel g commits = Some r ->
  UniqueAncestorMergeBase fuel' g commits = Some r.
Proof.
  revert fuel' commits. induction fuel as [|fuel IH]; intros fuel' commits Hle; [done|].
  destruct fuel' as [|fuel']; [lia|]. simpl.
  destruct (UniqueAncestorMergeBase_body g commits); [done|].
  apply IH. lia.
Qed.

Lemma MergeBases_exit (g : Git) (proc : process) (commits : list string)
    (status : Z) (out : string) :
  runs g proc ->
  proc (["merge-base"; "--all"] ++ commits) "" = (status, out) ->
  status <> 0%Z ->
  MergeBases g commits = Err (ErrExec (exitStatus status)).
Proof.
  intros Hruns Hproc Hstatus. unfold MergeBases, RunTrimSplit.
  rewrite Hruns. unfold xcRun. rewrite Hproc.
  rewrite bool_decide_eq_false_2 by done.
  rewrite bool_decide_eq_false_2 by (intros Hin; by apply elem_of_nil in Hin).
  done.
Qed.

(** C5, the code at the failing input: for tips without a common ancestor
    the merge-base query of git prints nothing and exits with status 1.
    [MergeBases] allows no exit code, so the query counts as failed and the
    resolver returns that error at its first pass; the arm for an empty
    list of bases, which returns the empty id and no error, is not
    reached.  This holds for every non-zero status of the query. *)
Theorem UniqueAncestorMergeBase_disjoint (g : Git) (proc : process)
    (commits : list string) (fuel : nat) (status : Z) (out : string) :
  runs g proc ->
  proc (["merge-base"; "--all"] ++ commits) "" = (status, out) ->
  status <> 0%Z ->
  UniqueAncestorMergeBase (S fuel) g commits = Some (Err (ErrExec (exitStatus status))).
Proof.
  intros Hruns Hproc Hstatus. simpl. unfold UniqueAncestorMergeBase_body.
  by rewrite (MergeBases_exit g proc commits status out).
Qed.

Lemma UniqueAncestorMergeBase_disjoint_witness :
  Examples.disjointHistories ["merge-base"; "--all"; "A"; "B"] "" = (1%Z, "") /\
  UniqueAncestorMergeBase 1 Examples.disjointRepo ["A"; "B"]
    = Some (Err (ErrExec "exit status 1")).
Proof.
  split; [reflexivity|].
  apply (UniqueAncestorMergeBase_disjoint Examples.disjointRepo Examples.disjointHistories
           ["A"; "B"] 0 1%Z "").
  - intros args stdin. reflexivity.
  - reflexivity.
  - lia.
Defined.

(** C6: if every merge-base query that answers with two or more bases
    answers with a candidate set of strictly smaller rank (the bases lie in
    strictly earlier history), the loop returns after at most
    [rank commits + 1] passes.  What it returns is the single base of the
    last query, the empty id when that query found no base, or the error of
    the query that failed. *)
Theorem UniqueAncestorMergeBase_terminates (g : Git) (rank : list string -> nat)
    (commits : list string) :
  (forall cs bases, MergeBases g cs = Ok bases -> 2 <= length bases -> rank bases < rank cs) ->
  exists r,
    (forall fuel, rank commits < fuel -> UniqueAncestorMergeBase fuel g commits = Some r) /\
    match r with
    | Ok b => exists cs, MergeBases g cs = Ok [b] \/ (MergeBases g cs = Ok [] /\ b = "")
    | Err e => exists cs, MergeBases g cs = Err e
    end.
Proof.
  intros Hrank.
  remember (rank commits) as k eqn:Hk. revert commits Hk.
  induction k as [k IH] using lt_wf_ind. intros commits ->.
  destruct (MergeBases g commits) as [bases|e] eqn:Hmb.
  - destruct bases as [|b [|b' bases]].
    + exists (Ok ""). split.
      * intros [|fuel] Hf; [lia|]. simpl. unfold UniqueAncestorMergeBase_body. by rewrite Hmb.
      * exists commits. by right.
    + exists (Ok b). split.
      * intros [|fuel] Hf; [lia|]. simpl. unfold UniqueAncestorMergeBase_body. by rewrite Hmb.
      * exists commits. by left.
    + assert (Hlt : rank (b :: b' :: bases) < rank commits).
      { apply (Hrank commits); [done | simpl; lia]. }
      destruct (IH (rank (b :: b' :: bases)) Hlt (b :: b' :: bases) eq_refl)
        as (r & Hrun & Hshape).
      exists r. split; [|done].
      intros [|fuel] Hf; [lia|]. simpl. unfold UniqueAncestorMergeBase_body. rewrite Hmb.
      apply Hrun. lia.
  - exists (Err e). split.
    + intros [|fuel] Hf; [lia|]. simpl. unfold UniqueAncestorMergeBase_body. by rewrite Hmb.
    + by exists commits.
Qed.

Lemma UniqueAncestorMergeBase_terminates_witness :
  exists r,
    (forall fuel, Examples.crissCrossRank ["a"; "b"] < fuel ->
       UniqueAncestorMergeBase fuel Examples.crissCross ["a"; "b"] = Some r) /\
    match r with
    | Ok b => exists cs, MergeBases Examples.crissCross cs = Ok [b] \/
                         (MergeBases Examples.crissCross cs = Ok [] /\ b = "")
    | Err e => exists cs, MergeBases Examples.crissCross cs = Err e
    end.
Proof.
  apply (UniqueAncestorMergeBase_terminates Examples.crissCross Examples.crissCrossRank).
  intros cs bases H Hlen.
  destruct (decide (cs = ["a"; "b"])) as [->|Hab].
  - vm_compute in H. inversion H; subst bases. vm_compute. lia.
  - destruct (decide (cs = ["c"; "d"])) as [->|Hcd].
    + vm_compute in H. inversion H; subst bases. simpl in Hlen. lia.
    + unfold MergeBases, RunTrimSplit in H. simpl in H.
      rewrite !bool_decide_eq_false_2 in H by congruence.
      discriminate H.
Defined.

(** ** Divergence set collector *)

(** C7: when the [rev-list] query issued for [tips] and [base] answers with
    the commits reachable from some tip and not from [base], [commitsBetween]
    succeeds and its result holds those commits and [base], and nothing
    else. *)
Theorem commitsBetween_exact (parents : string -> list string) (g : Git)
    (base : string) (tips revs : list string) :
  RunTrimSplit g (["rev-list"] ++ tips ++ ["--not"; base]) "" LF = Ok revs ->
  (forall c, c ∈ revs <->
     (exists t, t ∈ tips /\ reachable parents t c) /\ ~ reachable parents base c) ->
  exists commits,
    commitsBetween g base tips = Ok commits /\
    forall c, c ∈ commits <->
      c = base \/
      ((exists t, t ∈ tips /\ reachable parents t c) /\ ~ reachable parents base c).
Proof.
  intros Hrun Hrevs. exists (revs ++ [base]). split.
  - unfold commitsBetween. by rewrite Hrun.
  - intros c. rewrite elem_of_app, list_elem_of_singleton, Hrevs. tauto.
Qed.

Lemma linear_reach_T (c : string) :
  reachable Examples.linearParents "T" c -> c = "T" \/ c = "B".
Proof.
  intros H. inversion H as [|? p ? Hp Hr]; subst; [by left|].
  vm_compute in Hp. apply list_elem_of_singleton in Hp. subst p.
  inversion Hr as [|? q ? Hq _]; subst; [by right|].
  vm_compute in Hq. by apply elem_of_nil in Hq.
Defined.

Lemma commitsBetween_exact_witness :
  exists commits,
    commitsBetween Examples.linear "B" ["T"] = Ok commits /\
    forall c, c ∈ commits <->
      c = "B" \/
      ((exists t, t ∈ ["T"] /\ reachable Examples.linearParents t c) /\
       ~ reachable Examples.linearParents "B" c).
Proof.
  apply (commitsBetween_exact Examples.linearParents Examples.linear "B" ["T"] ["T"]).
  - reflexivity.
  - intros c. rewrite list_elem_of_singleton. split.
    + intros ->. split.
      * exists "T". split; [apply list_elem_of_singleton; reflexivity | constructor].
      * intros H. inversion H as [|? q ? Hq _]; subst.
        vm_compute in Hq. by apply elem_of_nil in Hq.
    + intros [(t & Ht & Hr) Hn]. apply list_elem_of_singleton in Ht. subst t.
      destruct (linear_reach_T c Hr) as [->| ->]; [reflexivity|].
      exfalso. apply Hn. constructor.
Defined.

(** C8 fails as stated: a batch check that exits successfully after printing
    ["deadbeef^{tree} missing"] for a commit it could not resolve makes
    [treesReferenced] return that line as if it were a tree id. *)
Lemma treesReferenced_unresolved_counterexample :
  ~ (forall (g : Git) (commits out : list string),
       RunTrimSplit g ["cat-file"; "--buffer"; "--batch-check=%(objectname)"]
         (treeBatch commits) LF = Ok out ->
       (exists line, line ∈ out /\ String.length line <> 40) ->
       exists e, treesReferenced g commits = Err e).
Proof.
  intros H.
  destruct (H Examples.missingTree ["deadbeef"] ["deadbeef^{tree} missing"]) as [e He].
  - reflexivity.
  - exists "deadbeef^{tree} missing". split; [apply list_elem_of_singleton; reflexivity|].
    vm_compute. lia.
  - vm_compute in He. discriminate He.
Qed.

(** C8, amended: [treesReferenced] fails exactly when the one batched
    toolchain invocation fails, with that error and without any tree list;
    when the invocation succeeds, the result is the trimmed output split
    into lines, whatever the lines are. *)
Theorem treesReferenced_fails_iff_toolchain (g : Git) (commits : list string) :
  let args := ["cat-file"; "--buffer"; "--batch-check=%(objectname)"] in
  (forall e, treesReferenced g commits = Err e <-> Run g args (treeBatch commits) = Err e) /\
  (forall trees, treesReferenced g commits = Ok trees <->
     exists out, Run g args (treeBatch commits) = Ok out /\
                 trees = Split g (TrimSpace g out) LF).
Proof.
  unfold treesReferenced, RunTrimSplit. simpl.
  destruct (Run g _ (treeBatch commits)) as [out|e0]; simpl; split.
  - intros e. split; discriminate.
  - intros trees. split.
    + intros [= <-]. by exists out.
    + intros (out' & [= <-] & ->). done.
  - intros e. split; intros [= ->]; done.
  - intros trees. split; [discriminate|]. intros (out' & Hout & _). discriminate.
Qed.

(** ** Pack assembler *)



Lemma MergePack_need_Ok (fuel : nat) (g : Git) (main topic : string) (need : list string) :
  MergePack_need fuel g main topic = Some (Ok need) ->
  exists base commits trees varying0,
    UniqueAncestorMergeBase fuel g [main; topic] = Some (Ok base) /\
    commitsBetween g base [main; topic] = Ok commits /\
    treesReferenced g commits = Ok trees /\
    varyingPaths g trees = Ok varying0 /\
    need = commits ++ trees ++ varying0.
Proof.
  unfold MergePack_need.
  destruct (UniqueAncestorMergeBase fuel g [main; topic]) as [r|]; [|discriminate].
  intros [= H].
  apply bind_Ok in H as (base & -> & H).
  apply bind_Ok in H as (commits & Hc & H).
  apply bind_Ok in H as (trees & Ht & H).
  apply bind_Ok in H as (varying0 & Hv & [= <-]).
  exists base, commits, trees, varying0. repeat split; try done.
  unfold needOf. simpl. by rewrite <- app_assoc.
Qed.



(** C3 fails as stated: for the repository in which [cM] rewrites [NOTES]
    and [cT] rewrites [README], the list handed to [packObjects] names the
    base versions of both files twice. *)
Lemma MergePack_need_duplicates_counterexample :
  exists need,
    MergePack_need 1 Examples.forkedRepo Examples.cM Examples.cT = Some (Ok need) /\
    ~ NoDup need.
Proof.
  eexists. split; [vm_compute; reflexivity|].
  intros H. do 6 (apply NoDup_cons in H as [_ H]).
  apply NoDup_cons in H as [Hnotin _]. apply Hnotin.
  do 3 apply list_elem_of_further. apply list_elem_of_here.
Qed.

(** C3, amended: the list [need] that [MergePack] hands to [packObjects] is
    the commit list, the tree list and the varying-object list one after
    the other.  Its elements are exactly theirs, and each id occurs in it as
    often as in the three lists together: nothing is removed. *)
Theorem MergePack_need_concat (fuel : nat) (g : Git) (main topic : string)
    (need : list string) :
  MergePack_need fuel g main topic = Some (Ok need) ->
  exists base commits trees varying0,
    UniqueAncestorMergeBase fuel g [main; topic] = Some (Ok base) /\
    commitsBetween g base [main; topic] = Ok commits /\
    treesReferenced g commits = Ok trees /\
    varyingPaths g trees = Ok varying0 /\
    need = commits ++ trees ++ varying0 /\
    MergePack fuel g main topic = Some (packObjects g need) /\
    (forall x, x ∈ need <-> x ∈ commits \/ x ∈ trees \/ x ∈ varying0) /\
    length need = length commits + length trees + length varying0.
Proof.
  intros H.
  apply MergePack_need_Ok in H as (base & commits & trees & varying0 & Hb & Hc & Ht & Hv & ->).
  exists base, commits, trees, varying0. repeat split; try done.
  - unfold MergePack. rewrite Hb. simpl. rewrite Hc. simpl. rewrite Ht. simpl.
    rewrite Hv. simpl. unfold needOf. simpl. rewrite <- app_assoc.
    by destruct (packObjects g _).
  - rewrite !elem_of_app. tauto.
  - rewrite !elem_of_app. tauto.
  - rewrite !length_app. lia.
Qed.

Lemma MergePack_need_concat_witness :
  exists base commits trees varying0,
    UniqueAncestorMergeBase 1 Examples.forkedRepo [Examples.cM; Examples.cT] = Some (Ok base) /\
    commitsBetween Examples.forkedRepo base [Examples.cM; Examples.cT] = Ok commits /\
    treesReferenced Examples.forkedRepo commits = Ok trees /\
    varyingPaths Examples.forkedRepo trees = Ok varying0 /\
    [Examples.cM; Examples.cT; Examples.cB; Examples.tM; Examples.tT; Examples.tB;
     Fake.oid "a"; Fake.oid "b"; Fake.oid "y"; Fake.oid "x"; Fake.oid "a"; Fake.oid "x"]
      = commits ++ trees ++ varying0 /\
    MergePack 1 Examples.forkedRepo Examples.cM Examples.cT
      = Some (packObjects Examples.forkedRepo
                [Examples.cM; Examples.cT; Examples.cB; Examples.tM; Examples.tT; Examples.tB;
                 Fake.oid "a"; Fake.oid "b"; Fake.oid "y"; Fake.oid "x"; Fake.oid "a";
                 Fake.oid "x"]) /\
    (forall x,
       x ∈ [Examples.cM; Examples.cT; Examples.cB; Examples.tM; Examples.tT; Examples.tB;
            Fake.oid "a"; Fake.oid "b"; Fake.oid "y"; Fake.oid "x"; Fake.oid "a"; Fake.oid "x"]
       <-> x ∈ commits \/ x ∈ trees \/ x ∈ varying0) /\
    12 = length commits + length trees + length varying0.
Proof.
  apply (MergePack_need_concat 1 Examples.forkedRepo Examples.cM Examples.cT).
  vm_compute. reflexivity.
Defined.

(** ** Varying-path analyzer *)

(** C1, the code at the failing input: [README] is a blob in the trees [t1]
    and [t2] and a nested-repository reference in [t3].  The second tree
    marks the path as varying, and the third is then taken without the
    check for nested repositories: the call succeeds and returns the id of
    the nested repository's commit among the objects to pack. *)
Theorem varyingPaths_submodule_at_varying_path :
  lsTree Examples.submoduleRepo "t1"
    = Ok ["blob " +:+ Fake.oid "a" +:+ " README"; "tree " +:+ Fake.oid "d" +:+ " dir"; ""] /\
  lsTree Examples.submoduleRepo "t3"
    = Ok ["commit " +:+ Fake.oid "c" +:+ " README"; "tree " +:+ Fake.oid "d" +:+ " dir"; ""] /\
  varyingPaths Examples.submoduleRepo ["t1"; "t2"; "t3"]
    = Ok [Fake.oid "a"; Fake.oid "b"; Fake.oid "c"] /\
  varyingPaths Examples.submoduleRepo ["t1"; "t3"] = Err ErrSubmodules.
Proof. repeat split; vm_compute; reflexivity. Qed.

(** C2, the code at the failing input: the same three trees in two orders.
    With the nested-repository reference last the call succeeds, with it
    second the call fails. *)
Theorem varyingPaths_order_decides_success :
  varyingPaths Examples.submoduleRepo ["t1"; "t2"; "t3"]
    = Ok [Fake.oid "a"; Fake.oid "b"; Fake.oid "c"] /\
  varyingPaths Examples.submoduleRepo ["t1"; "t3"; "t2"] = Err ErrSubmodules /\
  ["t1"; "t3"; "t2"] ≡ₚ ["t1"; "t2"; "t3"].
Proof.
  split; [vm_compute; reflexivity|]. split; [vm_compute; reflexivity|].
  constructor. apply perm_swap.
Qed.

(** ** The result set of the varying-path analyzer *)

Lemma variesAt_mono (E E' : entries) (path : string) :
  (forall t s, E t s path -> E' t s path) -> variesAt E path -> variesAt E' path.
Proof.
  intros Hsub (t1 & s1 & t2 & s2 & H1 & H2 & Hne).
  exists t1, s1, t2, s2. auto.
Qed.

Lemma extend_other (E : entries) (t0 s0 p0 t s p : string) :
  p <> p0 -> extend E t0 s0 p0 t s p <-> E t s p.
Proof. unfold extend. intros Hne. split; [intros [H | (_ & _ & H)]; [done | by destruct Hne] | auto]. Qed.

Lemma variesAt_extend_other (E : entries) (t0 s0 p0 path : string) :
  path <> p0 -> variesAt (extend E t0 s0 p0) path <-> variesAt E path.
Proof.
  intros Hne. split; apply variesAt_mono; intros t s; by rewrite extend_other.
Qed.

Lemma vinv_ext (E E' : entries) (st : vstate) :
  (forall t s p, E t s p <-> E' t s p) -> vinv E st -> vinv E' st.
Proof.
  intros Heq [Hu Ht Hb Hs Hv Hr Hy].
  assert (Hvar : forall path, variesAt E path <-> variesAt E' path).
  { intros path. split; apply variesAt_mono; intros t s; apply Heq. }
  split.
  - intros path Hnone t s HE. apply (Hu path Hnone t s). by apply Heq.
  - done.
  - intros path c Hc. apply Heq. eauto.
  - intros path c Hc Hf t s HE. apply (Hs path c Hc Hf). by apply Heq.
  - intros path c Hc Htrue. apply Hvar. eauto.
  - intros path c Hc Htrue. destruct (Hr path c Hc Htrue) as (Hnc & t & s & HE & Hrest).
    split; [done|]. exists t, s. split; [by apply Heq | done].
  - intros x. rewrite Hy. split; intros (path & t & H1 & H2); exists path, t.
    + split; [by apply Hvar | by apply Heq].
    + split; [by apply Hvar | by apply Heq].
Qed.

Lemma vinv_vstate0 : vinv (fun _ _ _ => False) vstate0.
Proof.
  split; simpl.
  - auto.
  - intros path c H. by rewrite lookup_empty in H.
  - intros path c H. by rewrite lookup_empty in H.
  - intros path c H. by rewrite lookup_empty in H.
  - intros path c H. by rewrite lookup_empty in H.
  - intros path c H. by rewrite lookup_empty in H.
  - intros x. split; [intros H; by apply elem_of_nil in H | intros (_ & _ & _ & [])].
Qed.

Lemma knownType_nonempty (t : string) : knownType t = true -> t <> "".
Proof. intros H ->. vm_compute in H. discriminate. Qed.

(** One more entry: [observe] either fails or keeps the record right. *)
Lemma observe_inv (E : entries) (st st' : vstate) (t s p : string) :
  t <> "" -> vinv E st -> observe st t s p = Ok st' -> vinv (extend E t s p) st'.
Proof.
  intros Ht [Hu Hty Hb Hs Hv Hr Hy]. unfold observe, mapGet.
  assert (Hmono : forall path, variesAt E path -> variesAt (extend E t s p) path).
  { intros path. apply variesAt_mono. intros; by left. }
  assert (Hkeep : forall path c,
             pathContents st !! path = Some c -> varies c = true ->
             typ c <> "commit" /\
             exists t' s', extend E t s p t' s' path /\ t' <> "commit" /\
                           (t' <> typ c \/ s' <> sha c)).
  { intros path c Hc Htrue. destruct (Hr path c Hc Htrue) as (Hnc & t' & s' & HE & Hrest).
    split; [done|]. exists t', s'. split; [by left | done]. }
  destruct (pathContents st !! p) as [c|] eqn:Hp; simpl.
  - rewrite bool_decide_eq_false_2 by eauto.
    destruct (varies c) eqn:Hvc.
    + (* the path is known to vary *)
      intros [= <-]. split; simpl.
      * intros path Hnone t' s' [HE | (_ & _ & ->)]; [by eapply Hu | congruence].
      * done.
      * intros path c' Hc'. left. eauto.
      * intros path c' Hc' Hf t' s' [HE | (-> & -> & ->)]; [eauto | congruence].
      * eauto.
      * done.
      * intros x. rewrite elem_of_app, list_elem_of_singleton, Hy. split.
        -- intros [(path & t' & H1 & H2) | ->].
           ++ exists path, t'. split; [auto | by left].
           ++ exists p, t. split; [eauto | by right].
        -- intros (path & t' & H1 & H2). destruct (decide (path = p)) as [->|Hne].
           ++ destruct H2 as [H2 | (_ & -> & _)]; [|by right].
              left. exists p, t'. eauto.
           ++ left. exists path, t'.
              by rewrite variesAt_extend_other in H1 by done; rewrite extend_other in H2 by done.
    + destruct (bool_decide (typ c ≠ t) || bool_decide (sha c ≠ s)) eqn:Hdiff.
      * (* first disagreement *)
        destruct (bool_decide (typ c = "commit") || bool_decide (t = "commit")) eqn:Hsub;
          [discriminate|].
        apply orb_false_iff in Hsub as [Hsub1 Hsub2].
        apply bool_decide_eq_false in Hsub1, Hsub2.
        intros [= <-].
        assert (Hnow : variesAt (extend E t s p) p).
        { exists (typ c), (sha c), t, s. split; [left; eauto|]. split; [by right|].
          apply orb_true_iff in Hdiff as [H | H]; apply bool_decide_eq_true in H; auto. }
        split; simpl.
        -- intros path Hnone t' s' [HE | (_ & _ & ->)].
           ++ apply lookup_insert_None in Hnone as [Hnone _]. by eapply Hu.
           ++ by rewrite lookup_insert_eq in Hnone.
        -- intros path c' Hc'. apply lookup_insert_Some in Hc' as [[_ <-] | [_ Hc']]; simpl; eauto.
        -- intros path c' Hc'. left.
           apply lookup_insert_Some in Hc' as [[<- <-] | [_ Hc']]; simpl; eauto.
        -- intros path c' Hc' Hf t' s' HE.
           apply lookup_insert_Some in Hc' as [[_ <-] | [Hne Hc']]; [done|].
           rewrite extend_other in HE by done. eauto.
        -- intros path c' Hc' Htrue.
           apply lookup_insert_Some in Hc' as [[<- _] | [_ Hc']]; eauto.
        -- intros path c' Hc' Htrue.
           apply lookup_insert_Some in Hc' as [[<- <-] | [_ Hc']]; simpl; [|eauto].
           split; [done|]. exists t, s. split; [by right|]. split; [done|].
           apply orb_true_iff in Hdiff as [H | H]; apply bool_decide_eq_true in H; auto.
        -- intros x. rewrite elem_of_app, !elem_of_cons, Hy. split.
           ++ intros [(path & t' & H1 & H2) | [-> | [-> | Hnil]]].
              ** exists path, t'. split; [auto | by left].
              ** exists p, (typ c). split; [done | left; eauto].
              ** exists p, t. split; [done | by right].
              ** by apply elem_of_nil in Hnil.
           ++ intros (path & t' & H1 & H2). destruct (decide (path = p)) as [->|Hne].
              ** right. destruct H2 as [H2 | (_ & -> & _)]; [|auto].
                 left. by destruct (Hs p c Hp Hvc t' x H2).
              ** left. exists path, t'.
                 by rewrite variesAt_extend_other in H1 by done; rewrite extend_other in H2 by done.
      * (* the same object again *)
        intros [= <-].
        apply orb_false_iff in Hdiff as [H1 H2].
        apply bool_decide_eq_false in H1, H2.
        assert (typ c = t) as <- by (by destruct (decide (typ c = t))).
        assert (sha c = s) as <- by (by destruct (decide (sha c = s))).
        apply (vinv_ext E); [|by split].
        intros t' s' p'. unfold extend. split; [auto|].
        intros [H | (-> & -> & ->)]; eauto.
  - (* first object for the path *)
    intros [= <-]. split; simpl.
    + intros path Hnone t' s' [HE | (_ & _ & ->)].
      * apply lookup_insert_None in Hnone as [Hnone _]. by eapply Hu.
      * by rewrite lookup_insert_eq in Hnone.
    + intros path c' Hc'. apply lookup_insert_Some in Hc' as [[_ <-] | [_ Hc']]; simpl; eauto.
    + intros path c' Hc'.
      apply lookup_insert_Some in Hc' as [[<- <-] | [_ Hc']]; simpl; [by right | left; eauto].
    + intros path c' Hc' Hf t' s' HE.
      apply lookup_insert_Some in Hc' as [[<- <-] | [Hne Hc']]; simpl.
      * destruct HE as [HE | (-> & -> & _)]; [by destruct (Hu p Hp t' s') | done].
      * rewrite extend_other in HE by done. eauto.
    + intros path c' Hc' Htrue.
      apply lookup_insert_Some in Hc' as [[_ <-] | [_ Hc']]; [done | eauto].
    + intros path c' Hc' Htrue.
      apply lookup_insert_Some in Hc' as [[_ <-] | [_ Hc']]; [done | eauto].
    + assert (Hnot : ~ variesAt (extend E t s p) p).
      { intros (t1 & s1 & t2 & s2 & [H1 | (-> & -> & _)] & [H2 | (-> & -> & _)] & Hne);
          try (by eapply Hu); by destruct Hne. }
      intros x. rewrite Hy. split.
      * intros (path & t' & H1 & H2). exists path, t'. split; [auto | by left].
      * intros (path & t' & H1 & H2). destruct (decide (path = p)) as [->|Hne]; [done|].
        exists path, t'.
        by rewrite variesAt_extend_other in H1 by done; rewrite extend_other in H2 by done.
Qed.

Lemma varyingLine_Ok (st st' : vstate) (line : string) :
  varyingLine st line = Ok st' ->
  (line = "" /\ st' = st) \/
  exists t s p, lineEntry line t s p /\ knownType t = true /\ p <> "" /\
                String.length s = 40 /\ observe st t s p = Ok st'.
Proof.
  unfold varyingLine. case_bool_decide as Hline; [intros [= <-]; by left|].
  destruct (SplitN line " " 3) as [|t [|s [|p [|? ?]]]] eqn:Hsplit; try discriminate.
  destruct (knownType t) eqn:Hknown; simpl; [|discriminate].
  case_bool_decide as Hpath; [discriminate|].
  case_bool_decide as Hlen; [discriminate|].
  intros Hobs. right. exists t, s, p. repeat split; try done.
Qed.

Lemma lineEntry_fun (line t s p t' s' p' : string) :
  lineEntry line t s p -> lineEntry line t' s' p' -> t' = t /\ s' = s /\ p' = p.
Proof. intros [_ H] [_ H']. rewrite H in H'. by inversion H'. Qed.

Lemma varyingLine_inv (E : entries) (st st' : vstate) (line : string) :
  vinv E st -> varyingLine st line = Ok st' -> vinv (union E (lineEntry line)) st'.
Proof.
  intros Hinv H. apply varyingLine_Ok in H as [[-> ->] | (t & s & p & Hent & Hk & _ & _ & Hobs)].
  - apply (vinv_ext E); [|done]. intros t s p. unfold union, lineEntry.
    split; [auto | intros [H | [Hne _]]; [done | by destruct Hne]].
  - apply (vinv_ext (extend E t s p)).
    + intros t' s' p'. unfold union, extend. split; intros [H | H]; auto.
      * destruct H as (-> & -> & ->). auto.
      * right. by apply (lineEntry_fun line).
    + apply (observe_inv E st); [by apply knownType_nonempty | done | done].
Qed.

Lemma seen_app (lines lines' : list string) (t s p : string) :
  seen (lines ++ lines') t s p <-> seen lines t s p \/ seen lines' t s p.
Proof.
  unfold seen. split.
  - intros (line & Hin & Hent). apply elem_of_app in Hin as [Hin | Hin]; eauto.
  - intros [(line & Hin & Hent) | (line & Hin & Hent)];
      exists line; (split; [apply elem_of_app; auto | done]).
Qed.

Lemma seen_cons (line : string) (lines : list string) (t s p : string) :
  seen (line :: lines) t s p <-> lineEntry line t s p \/ seen lines t s p.
Proof.
  unfold seen. split.
  - intros (line' & Hin & Hent). apply elem_of_cons in Hin as [-> | Hin]; eauto.
  - intros [Hent | (line' & Hin & Hent)].
    + exists line. split; [apply list_elem_of_here | done].
    + exists line'. split; [by apply list_elem_of_further | done].
Qed.

Lemma seen_nil (t s p : string) : ~ seen [] t s p.
Proof. intros (line & H & _). by apply elem_of_nil in H. Qed.

Lemma foldM_varyingLine_inv (E : entries) (lines : list string) (st st' : vstate) :
  vinv E st -> foldM varyingLine lines st = Ok st' -> vinv (union E (seen lines)) st'.
Proof.
  revert E st. induction lines as [|line lines IH]; intros E st Hinv; simpl.
  - intros [= <-]. apply (vinv_ext E); [|done].
    intros t s p. unfold union. pose proof (seen_nil t s p). tauto.
  - intros H. apply bind_Ok in H as (st1 & Hline & Hrest).
    apply (vinv_ext (union (union E (lineEntry line)) (seen lines))).
    + intros t s p. unfold union. rewrite seen_cons. tauto.
    + apply (IH _ st1); [|done]. by apply (varyingLine_inv E st).
Qed.

Lemma seenIn_cons (g : Git) (tree : string) (trees lines : list string) (t s p : string) :
  lsTree g tree = Ok lines ->
  seenIn g (tree :: trees) t s p <-> seen lines t s p \/ seenIn g trees t s p.
Proof.
  intros Hls. unfold seenIn. setoid_rewrite elem_of_cons. split.
  - intros (tree' & lines' & [-> | Hin] & Hls' & Hseen).
    + left. rewrite Hls in Hls'. by inversion Hls'; subst.
    + right. eauto.
  - intros [Hseen | (tree' & lines' & Hin & Hls' & Hseen)]; eauto 10.
Qed.

Lemma seenIn_nil (g : Git) (t s p : string) : ~ seenIn g [] t s p.
Proof. intros (tree & lines & H & _). by apply elem_of_nil in H. Qed.

Lemma foldM_varyingTree_inv (g : Git) (E : entries) (trees : list string) (st st' : vstate) :
  vinv E st -> foldM (varyingTree g) trees st = Ok st' -> vinv (union E (seenIn g trees)) st'.
Proof.
  revert E st. induction trees as [|tree trees IH]; intros E st Hinv; simpl.
  - intros [= <-]. apply (vinv_ext E); [|done].
    intros t s p. unfold union. pose proof (seenIn_nil g t s p). tauto.
  - intros H. apply bind_Ok in H as (st1 & Htree & Hrest).
    unfold varyingTree in Htree. apply bind_Ok in Htree as (lines & Hls & Hlines).
    apply (vinv_ext (union (union E (seen lines)) (seenIn g trees))).
    + intros t s p. unfold union. rewrite (seenIn_cons g tree trees lines) by done. tauto.
    + apply (IH _ st1); [|done]. by apply (foldM_varyingLine_inv E lines st).
Qed.

(** Every tree of a successful call has a listing. *)
Lemma foldM_varyingTree_listed (g : Git) (trees : list string) (st st' : vstate) (tree : string) :
  foldM (varyingTree g) trees st = Ok st' -> tree ∈ trees ->
  exists lines, lsTree g tree = Ok lines.
Proof.
  revert st. induction trees as [|tree0 trees IH]; intros st H Hin.
  - by apply elem_of_nil in Hin.
  - simpl in H. apply bind_Ok in H as (st1 & Htree & Hrest).
    apply elem_of_cons in Hin as [->|Hin]; [|eauto].
    unfold varyingTree in Htree. apply bind_Ok in Htree as (lines & Hls & _). eauto.
Qed.

Lemma varyingPaths_inv (g : Git) (trees v : list string) :
  varyingPaths g trees = Ok v ->
  exists st,
    foldM (varyingTree g) trees vstate0 = Ok st /\ v = varying st /\
    vinv (seenIn g trees) st.
Proof.
  unfold varyingPaths. intros H. apply bind_Ok in H as (st & Hfold & [= <-]).
  exists st. split; [done|]. split; [done|].
  pose proof (foldM_varyingTree_inv g _ trees _ _ vinv_vstate0 Hfold) as Hinv.
  apply (vinv_ext _ (seenIn g trees)) in Hinv; [done | unfold union; tauto].
Qed.

(** When [varyingPaths] succeeds, its result holds exactly the ids seen at
    the paths for which two of the listings' entries disagree in kind or id:
    every id ever listed at such a path, and no id of any other path. *)
Theorem varyingPaths_members (g : Git) (trees v : list string) :
  varyingPaths g trees = Ok v ->
  forall x, x ∈ v <->
    exists path t, variesAt (seenIn g trees) path /\ seenIn g trees t x path.
Proof.
  intros H x. apply varyingPaths_inv in H as (st & _ & -> & Hinv).
  apply (vinv_varying _ _ Hinv).
Qed.

Lemma seen_Permutation (lines lines' : list string) (t s p : string) :
  lines ≡ₚ lines' -> seen lines t s p -> seen lines' t s p.
Proof. intros Hperm (line & Hin & Hent). exists line. by rewrite <- Hperm. Qed.

(** Two successful calls on the same trees in another order, with each
    tree's listing in another order, return the same set of ids. *)
Theorem varyingPaths_same_set (g g' : Git) (trees trees' v v' : list string) :
  trees ≡ₚ trees' ->
  (forall tree lines lines',
     lsTree g tree = Ok lines -> lsTree g' tree = Ok lines' -> lines ≡ₚ lines') ->
  varyingPaths g trees = Ok v ->
  varyingPaths g' trees' = Ok v' ->
  forall x, x ∈ v <-> x ∈ v'.
Proof.
  intros Htrees Hlines Hv Hv' x.
  apply varyingPaths_inv in Hv as (st & Hfold & -> & Hinv).
  apply varyingPaths_inv in Hv' as (st' & Hfold' & -> & Hinv').
  rewrite (vinv_varying _ _ Hinv), (vinv_varying _ _ Hinv').
  assert (Hseen : forall t s p, seenIn g trees t s p <-> seenIn g' trees' t s p).
  { intros t s p. split.
    - intros (tree & lines & Hin & Hls & Hs).
      assert (Hin' : tree ∈ trees') by (by rewrite <- Htrees).
      destruct (foldM_varyingTree_listed g' trees' _ _ tree Hfold' Hin') as [lines' Hls'].
      exists tree, lines'. repeat split; try done.
      apply (seen_Permutation lines); [eauto | done].
    - intros (tree & lines' & Hin' & Hls' & Hs).
      assert (Hin : tree ∈ trees) by (by rewrite Htrees).
      destruct (foldM_varyingTree_listed g trees _ _ tree Hfold Hin) as [lines Hls].
      exists tree, lines. repeat split; try done.
      apply (seen_Permutation lines'); [symmetry; eauto | done]. }
  assert (Hvar : forall path, variesAt (seenIn g trees) path <-> variesAt (seenIn g' trees') path).
  { intros path. split; apply variesAt_mono; intros t s; apply Hseen. }
  split; intros (path & t & H1 & H2); exists path, t.
  - split; [by apply Hvar | by apply Hseen].
  - split; [by apply Hvar | by apply Hseen].
Qed.

(** Under the record kept by [varyingPaths], a path at which a
    nested-repository reference disagrees with another entry has a further
    regular entry that differs from both. *)
Lemma vinv_third_entry (E : entries) (st : vstate) (path t1 s1 t2 s2 : string) :
  vinv E st ->
  E t1 s1 path -> E t2 s2 path ->
  t1 <> t2 \/ s1 <> s2 ->
  t1 = "commit" \/ t2 = "commit" ->
  exists t3 s3, E t3 s3 path /\ t3 <> "commit" /\
                (t3 <> t1 \/ s3 <> s1) /\ (t3 <> t2 \/ s3 <> s2).
Proof.
  intros [Hu _ Hb Hs _ Hr _] H1 H2 Hne Hsub.
  destruct (pathContents st !! path) as [c|] eqn:Hc; [|by destruct (Hu path Hc t1 s1)].
  destruct (varies c) eqn:Hvc.
  - destruct (Hr path c Hc Hvc) as (Hnc & t & s & HE & Hnt & Hdiff).
    pose proof (Hb path c Hc) as Hbase.
    assert (Hpick : forall t0 s0, t0 <> typ c \/ s0 <> sha c \/ (t <> t0 \/ s <> s0)).
    { intros t0 s0. destruct (decide (t0 = typ c)) as [->|]; [|auto].
      destruct (decide (s0 = sha c)) as [->|]; auto. }
    destruct Hsub as [-> | ->].
    + destruct (Hpick t2 s2) as [Hd | [Hd | Hd]].
      * exists (typ c), (sha c). repeat split; auto.
      * exists (typ c), (sha c). repeat split; auto.
      * exists t, s. repeat split; auto.
    + destruct (Hpick t1 s1) as [Hd | [Hd | Hd]].
      * exists (typ c), (sha c). repeat split; auto.
      * exists (typ c), (sha c). repeat split; auto.
      * exists t, s. repeat split; auto.
  - destruct (Hs path c Hc Hvc t1 s1 H1) as [-> ->].
    destruct (Hs path c Hc Hvc t2 s2 H2) as [-> ->].
    by destruct Hne.
Qed.

(** A successful call has seen, at every path where a nested-repository
    reference disagrees with another entry, a further regular entry that
    differs from both. *)
Theorem varyingPaths_Ok_submodule (g : Git) (trees v : list string)
    (path t1 s1 t2 s2 : string) :
  varyingPaths g trees = Ok v ->
  seenIn g trees t1 s1 path -> seenIn g trees t2 s2 path ->
  t1 <> t2 \/ s1 <> s2 ->
  t1 = "commit" \/ t2 = "commit" ->
  exists t3 s3, seenIn g trees t3 s3 path /\ t3 <> "commit" /\
                (t3 <> t1 \/ s3 <> s1) /\ (t3 <> t2 \/ s3 <> s2).
Proof.
  intros H H1 H2 Hne Hsub.
  apply varyingPaths_inv in H as (st & _ & _ & Hinv).
  by apply (vinv_third_entry _ st).
Qed.

Lemma observe_Err (st : vstate) (t s p : string) (e : error) :
  observe st t s p = Err e -> e = ErrSubmodules.
Proof.
  unfold observe.
  repeat (case_bool_decide || case_match || simpl); intros [=]; done.
Qed.

Lemma varyingLine_Err (st : vstate) (line : string) (e : error) :
  wellFormed line -> varyingLine st line = Err e -> e = ErrSubmodules.
Proof.
  unfold varyingLine. intros [-> | (t & s & p & [Hne Hsplit] & Hk & Hp & Hlen)]; [done|].
  rewrite bool_decide_eq_false_2 by done. rewrite Hsplit, Hk. simpl.
  rewrite bool_decide_eq_false_2 by done.
  rewrite bool_decide_eq_false_2 by (by intros []).
  apply observe_Err.
Qed.

Lemma foldM_varyingLine_Err (lines : list string) (st : vstate) (e : error) :
  Forall wellFormed lines -> foldM varyingLine lines st = Err e -> e = ErrSubmodules.
Proof.
  intros Hwf. revert st. induction Hwf as [|line lines Hline _ IH]; intros st; simpl; [done|].
  intros H. apply bind_Err in H as [H | (st1 & _ & H)]; [by eapply varyingLine_Err | eauto].
Qed.

Lemma foldM_varyingTree_Err (g : Git) (trees : list string) (st : vstate) (e : error) :
  (forall tree, tree ∈ trees -> exists lines, lsTree g tree = Ok lines /\ Forall wellFormed lines) ->
  foldM (varyingTree g) trees st = Err e -> e = ErrSubmodules.
Proof.
  revert st. induction trees as [|tree trees IH]; intros st Hls; simpl; [done|].
  intros H. apply bind_Err in H as [H | (st1 & _ & H)].
  - destruct (Hls tree) as (lines & Hl & Hwf); [apply list_elem_of_here|].
    unfold varyingTree in H. rewrite Hl in H. simpl in H.
    by eapply foldM_varyingLine_Err.
  - apply (IH st1); [|done]. intros tree' Hin. apply Hls. by apply list_elem_of_further.
Qed.

(** With every listing obtained and well-formed, the only error of
    [varyingPaths] is the one for nested repositories. *)
Lemma varyingPaths_Err (g : Git) (trees : list string) (e : error) :
  (forall tree, tree ∈ trees -> exists lines, lsTree g tree = Ok lines /\ Forall wellFormed lines) ->
  varyingPaths g trees = Err e -> e = ErrSubmodules.
Proof.
  unfold varyingPaths. intros Hls H.
  apply bind_Err in H as [H | (st & _ & [=])].
  by apply (foldM_varyingTree_Err g trees vstate0).
Qed.

(** The two-sided case: a path that the listings give as a
    nested-repository reference on one side and as one other entry on the
    other makes [varyingPaths] fail with the error for nested repositories,
    whatever the order of the trees. *)
Theorem varyingPaths_two_sided_submodule (g : Git) (trees : list string)
    (path t1 s1 t2 s2 : string) :
  (forall tree, tree ∈ trees -> exists lines, lsTree g tree = Ok lines /\ Forall wellFormed lines) ->
  seenIn g trees t1 s1 path -> seenIn g trees t2 s2 path ->
  t1 <> t2 \/ s1 <> s2 ->
  t1 = "commit" \/ t2 = "commit" ->
  (forall t s, seenIn g trees t s path -> (t = t1 /\ s = s1) \/ (t = t2 /\ s = s2)) ->
  varyingPaths g trees = Err ErrSubmodules.
Proof.
  intros Hls H1 H2 Hne Hsub Honly.
  destruct (varyingPaths g trees) as [v|e] eqn:Hrun.
  - apply varyingPaths_inv in Hrun as (st & _ & _ & Hinv).
    destruct (vinv_third_entry _ st path t1 s1 t2 s2 Hinv H1 H2 Hne Hsub)
      as (t3 & s3 & H3 & _ & Hd1 & Hd2).
    destruct (Honly t3 s3 H3) as [[-> ->] | [-> ->]]; [by destruct Hd1 | by destruct Hd2].
  - f_equal. unfold varyingPaths in Hrun.
    apply bind_Err in Hrun as [H | (st & _ & [=])].
    by apply (foldM_varyingTree_Err g trees vstate0).
Qed.

(** A successful call has checked every line of every listing: each tree
    was listed, and no line of a listing is malformed. *)
Theorem varyingPaths_validates (g : Git) (trees v : list string) :
  varyingPaths g trees = Ok v ->
  forall tree, tree ∈ trees ->
    exists lines, lsTree g tree = Ok lines /\ Forall wellFormed lines.
Proof.
  intros H. apply varyingPaths_inv in H as (st & Hfold & _ & _).
  revert Hfold. generalize vstate0.
  induction trees as [|tree0 trees IH]; intros st0 Hfold tree Hin.
  - by apply elem_of_nil in Hin.
  - simpl in Hfold. apply bind_Ok in Hfold as (st1 & Htree & Hrest).
    apply elem_of_cons in Hin as [->|Hin]; [|by apply (IH st1)].
    unfold varyingTree in Htree. apply bind_Ok in Htree as (lines & Hls & Hlines).
    exists lines. split; [done|].
    clear Hls Hrest IH. revert st0 Hlines.
    induction lines as [|line lines IHl]; intros st0 Hlines; [constructor|].
    simpl in Hlines. apply bind_Ok in Hlines as (st2 & Hline & Hlines).
    constructor; [|by apply (IHl st2)].
    apply varyingLine_Ok in Hline as [[-> _] | (t & s & p & Hent & Hk & Hp & Hlen & _)].
    + by left.
    + right. by exists t, s, p.
Qed.

(** A successful call returns no object exactly when no path has two
    entries that disagree. *)
Theorem varyingPaths_empty_iff (g : Git) (trees v : list string) :
  varyingPaths g trees = Ok v ->
  v = [] <-> forall path, ~ variesAt (seenIn g trees) path.
Proof.
  intros H. apply varyingPaths_inv in H as (st & _ & -> & Hinv). split.
  - intros Hnil path Hvar.
    destruct Hvar as (t1 & s1 & t2 & s2 & H1 & H2 & Hne).
    assert (Hin : s1 ∈ varying st).
    { apply (vinv_varying _ _ Hinv). exists path, t1. split; [|done].
      by exists t1, s1, t2, s2. }
    rewrite Hnil in Hin. by apply elem_of_nil in Hin.
  - intros Hnone. destruct (varying st) as [|x l] eqn:Hv; [done|].
    assert (Hin : x ∈ varying st) by (rewrite Hv; apply list_elem_of_here).
    apply (vinv_varying _ _ Hinv) in Hin as (path & t & Hvar & _).
    by destruct (Hnone path).
Qed.

(** ** Transfer protocol client *)

(** C4: for a response with status 200 whose [Merde-Server-API-Version]
    header is not the expected response version, [doRequest] calls the
    consumer once, with the version error and no message, and returns
    without asking the multipart reader for a part.  A consumer that pulls
    everything therefore sees one error and no message. *)
Theorem doRequest_version_mismatch {St : Type} (yield : St -> Item -> St * bool)
    (n : Net) (req : Request) (resp : HttpResponse) (s : St) :
  Do n req = Ok resp ->
  StatusCode resp = 200%Z ->
  Header resp "Merde-Server-API-Version" <> apiResponseVersion ->
  let e := ErrVersion (Header resp "Merde-Server-API-Version") in
  doRequest yield n req s = ((yield s (None, Some e)).1, 0) /\
  items n req = [(None, Some e)] /\
  messages (items n req) = [] /\
  errors (items n req) = [e].
Proof.
  intros HDo Hstatus Hver e.
  assert (Hrun : forall (T : Type) (y : T -> Item -> T * bool) (t : T),
             doRequest y n req t = ((y t (None, Some e)).1, 0)).
  { intros T y t. unfold doRequest. rewrite HDo.
    rewrite bool_decide_eq_true_2 by done.
    by rewrite bool_decide_eq_true_2 by done. }
  split; [apply Hrun|].
  assert (Hitems : items n req = [(None, Some e)]).
  { unfold items. by rewrite Hrun. }
  rewrite Hitems. done.
Qed.

Lemma doRequest_version_mismatch_witness :
  let n := Examples.net (Examples.respWith "2") [Ok (Examples.jsonPart "hello")] in
  let e := ErrVersion "2" in
  doRequest record n Examples.getRoot [] = ([(None, Some e)], 0) /\
  items n Examples.getRoot = [(None, Some e)] /\
  messages (items n Examples.getRoot) = [] /\
  errors (items n Examples.getRoot) = [e].
Proof.
  apply (doRequest_version_mismatch record
           (Examples.net (Examples.respWith "2") [Ok (Examples.jsonPart "hello")])
           Examples.getRoot (Examples.respWith "2") []).
  - reflexivity.
  - reflexivity.
  - vm_compute. discriminate.
Defined.

(** Parts that decode are yielded one by one, in arrival order, and the
    loop goes on with what follows them. *)
Lemma partsLoop_record_decodable (n : Net) (pre tl : list (Result Part))
    (log : list Item) (k : nat) :
  Forall (decodable n) pre ->
  exists msgs,
    length msgs = length pre /\ Forall isMessage msgs /\
    partsLoop record n (pre ++ tl) log k = partsLoop record n tl (log ++ msgs) (k + length pre).
Proof.
  intros Hpre. revert log k. induction Hpre as [|q pre Hq _ IH]; intros log k.
  - exists []. simpl. by rewrite app_nil_r, Nat.add_0_r.
  - destruct q as [p|e]; [|done].
    assert (Hstep : exists r,
               partsLoop record n ((Ok p :: pre) ++ tl) log k
               = partsLoop record n (pre ++ tl) (log ++ [(Some r, None)]) (S k)).
    { simpl. destruct Hq as [[Hct [r Hr]] | [Hct Hr]].
      - rewrite bool_decide_eq_true_2 by done. rewrite Hr. eauto.
      - rewrite bool_decide_eq_false_2 by (rewrite Hct; discriminate).
        rewrite bool_decide_eq_true_2 by done. unfold Copy. rewrite Hr. eauto. }
    destruct Hstep as [r Hstep].
    destruct (IH (log ++ [(Some r, None)]) (S k)) as (msgs & Hlen & Hmsgs & Heq).
    exists ((Some r, None) :: msgs). split; [simpl; by rewrite Hlen|].
    split; [constructor; [by exists r | done]|].
    rewrite Hstep, Heq. rewrite <- app_assoc. simpl. f_equal. lia.
Qed.

(** C10: a part is dispatched on its [Content-Type] header compared as a
    whole string.  When the loop reaches a part whose header is neither
    ["application/json"] nor ["application/octet-stream"] (a JSON type with
    a parameter is such a header), it yields the unexpected-type error
    naming the header and returns: the part is not decoded and no later
    part is read.  For the whole stream this means: the parts before it
    arrive as messages, then comes that one error, and that is the end. *)
Theorem doRequest_unrecognized_part_type (n : Net) (p : Part) :
  partContentType p <> "application/json" ->
  partContentType p <> "application/octet-stream" ->
  let e := ErrPartType (partContentType p) in
  (forall (St : Type) (yield : St -> Item -> St * bool) (rest : list (Result Part))
          (s : St) (consumed : nat),
      partsLoop yield n (Ok p :: rest) s consumed
      = ((yield s (None, Some e)).1, S consumed)) /\
  (forall (req : Request) (resp : HttpResponse) (mediaType : string)
          (params : string -> string) (pre rest : list (Result Part)),
      Do n req = Ok resp ->
      StatusCode resp = 200%Z ->
      Header resp "Merde-Server-API-Version" = apiResponseVersion ->
      ParseMediaType n (Header resp "Content-Type") = Ok (mediaType, params) ->
      HasPrefix mediaType "multipart/" = true ->
      NewReader n (Body resp) (params "boundary") = pre ++ Ok p :: rest ->
      Forall (decodable n) pre ->
      exists msgs,
        length msgs = length pre /\ Forall isMessage msgs /\
        doRequest record n req [] = (msgs ++ [(None, Some e)], S (length pre))).
Proof.
  intros Hjson Hbin e.
  assert (Hstep : forall (St : Type) (yield : St -> Item -> St * bool) rest s consumed,
             partsLoop yield n (Ok p :: rest) s consumed
             = ((yield s (None, Some e)).1, S consumed)).
  { intros St yield rest s consumed. simpl.
    rewrite bool_decide_eq_false_2 by done.
    by rewrite bool_decide_eq_false_2 by done. }
  split; [exact Hstep|].
  intros req resp mediaType params pre rest HDo Hstatus Hver Hmedia Hprefix Hparts Hpre.
  destruct (partsLoop_record_decodable n pre (Ok p :: rest) [] 0 Hpre)
    as (msgs & Hlen & Hmsgs & Heq).
  exists msgs. split; [done|]. split; [done|].
  unfold doRequest. rewrite HDo.
  rewrite bool_decide_eq_true_2 by done.
  rewrite bool_decide_eq_false_2 by (by intros []).
  rewrite Hmedia, Hprefix. simpl negb. cbv iota.
  by rewrite Hparts, Heq, Hstep.
Qed.

Lemma doRequest_unrecognized_part_type_witness :
  let n := Examples.net (Examples.respWith "1")
             [Ok (Examples.jsonPart "hello"); Ok (Examples.binaryPart "PACK");
              Ok (Examples.charsetPart "{}"); Ok (Examples.jsonPart "never")] in
  let e := ErrPartType "application/json; charset=utf-8" in
  partsLoop record n [Ok (Examples.charsetPart "{}"); Ok (Examples.jsonPart "never")] [] 0
    = ([(None, Some e)], 1) /\
  exists msgs,
    length msgs = 2 /\ Forall isMessage msgs /\
    doRequest record n Examples.getRoot [] = (msgs ++ [(None, Some e)], 3).
Proof.
  intros n e.
  destruct (doRequest_unrecognized_part_type n (Examples.charsetPart "{}")) as [Hstep Hstream].
  - vm_compute. discriminate.
  - vm_compute. discriminate.
  - split; [apply (Hstep _ record)|].
    apply (Hstream Examples.getRoot (Examples.respWith "1") "multipart/mixed"
             (fun _ => "XX")
             [Ok (Examples.jsonPart "hello"); Ok (Examples.binaryPart "PACK")]
             [Ok (Examples.jsonPart "never")]); try reflexivity.
    apply Forall_cons_2; [left; split; [reflexivity | eexists; reflexivity]|].
    apply Forall_cons_2; [right; split; reflexivity|]. apply Forall_nil_2.
Defined.

(** ** Parsing a listing *)

Lemma length_append (a b : string) :
  String.length (a +:+ b) = String.length a + String.length b.
Proof. induction a as [|c a IH]; simpl; [done | by rewrite IH]. Qed.

Lemma substring_append_l (a b : string) :
  String.substring 0 (String.length a) (a +:+ b) = a.
Proof.
  induction a as [|c a IH]; simpl; [by destruct b | by rewrite IH].
Qed.

Lemma substring_append_r (a b : string) (k m : nat) :
  String.substring (String.length a + k) m (a +:+ b) = String.substring k m b.
Proof. induction a as [|c a IH]; simpl; done. Qed.

Lemma substring_whole (b : string) : String.substring 0 (String.length b) b = b.
Proof. induction b as [|c b IH]; simpl; [done | by rewrite IH]. Qed.

Lemma index_space_None (c : ascii) (a : string) :
  String.index 0 " " (String c a) = None ->
  c <> " "%char /\ String.index 0 " " a = None.
Proof.
  cbn [String.index String.prefix].
  destruct (Ascii.ascii_dec " " c) as [Heq|Hne]; [by destruct a|].
  destruct (String.index 0 " " a) as [m|]; [discriminate | auto].
Qed.

Lemma index_space_append (a b : string) :
  String.index 0 " " a = None ->
  String.index 0 " " (a +:+ " " +:+ b) = Some (String.length a).
Proof.
  induction a as [|c a IH]; intros Hnone.
  - cbn. by destruct b.
  - apply index_space_None in Hnone as [Hc Ha].
    change (String c a +:+ " " +:+ b) with (String c (a +:+ " " +:+ b)).
    cbn [String.index String.length]. rewrite (IH Ha).
    assert (Hpre : String.prefix " " (String c (a +:+ " " +:+ b)) = false).
    { cbn [String.prefix]. destruct (Ascii.ascii_dec " " c) as [Heq|]; [by destruct Hc|done]. }
    by rewrite Hpre.
Qed.

Lemma SplitN_two (s p : string) :
  String.index 0 " " s = None -> SplitN (s +:+ " " +:+ p) " " 2 = [s; p].
Proof.
  intros Hs. cbn [SplitN]. rewrite (index_space_append s p Hs).
  rewrite substring_append_l. f_equal.
  rewrite substring_append_r. rewrite length_append.
  change (String.length " ") with 1.
  change (" " +:+ p) with (String " " p).
  cbn [String.substring String.length].
  replace (String.length s + S (String.length p) - (String.length s + 1))
    with (String.length p) by lia.
  by rewrite substring_whole.
Qed.

Lemma SplitN_entry (t s p : string) :
  String.index 0 " " t = None ->
  String.index 0 " " s = None ->
  SplitN (t +:+ " " +:+ s +:+ " " +:+ p) " " 3 = [t; s; p].
Proof.
  intros Ht Hs.
  change (SplitN (t +:+ " " +:+ s +:+ " " +:+ p) " " 3) with
    (match String.index 0 " " (t +:+ " " +:+ s +:+ " " +:+ p) with
     | None => [t +:+ " " +:+ s +:+ " " +:+ p]
     | Some m =>
         String.substring 0 m (t +:+ " " +:+ s +:+ " " +:+ p)
           :: SplitN (String.substring (m + String.length " ")
                        (String.length (t +:+ " " +:+ s +:+ " " +:+ p)
                         - (m + String.length " "))
                        (t +:+ " " +:+ s +:+ " " +:+ p)) " " 2
     end).
  rewrite (index_space_append t _ Ht), substring_append_l. f_equal.
  rewrite substring_append_r, length_append.
  change (String.length " ") with 1.
  change (" " +:+ s +:+ " " +:+ p) with (String " " (s +:+ " " +:+ p)).
  cbn [String.substring String.length].
  replace (String.length t + S (String.length (s +:+ " " +:+ p)) - (String.length t + 1))
    with (String.length (s +:+ " " +:+ p)) by lia.
  rewrite substring_whole. by apply SplitN_two.
Qed.

Lemma knownType_cases (t : string) :
  knownType t = true -> t = "blob" \/ t = "tree" \/ t = "commit".
Proof.
  unfold knownType. intros H.
  apply orb_true_iff in H as [H | H]; [apply orb_true_iff in H as [H | H]|];
    apply bool_decide_eq_true in H; auto.
Qed.

(** A record of a listing written as kind, id and path with single spaces
    between them is read back as exactly these three fields, whatever the
    path is made of, spaces included: for a known kind, a 40-character id
    without spaces and a path that is not empty, the line is treated as
    that entry. *)
Theorem varyingLine_entry (st : vstate) (t s p : string) :
  knownType t = true ->
  String.length s = 40 ->
  String.index 0 " " s = None ->
  p <> "" ->
  lineEntry (t +:+ " " +:+ s +:+ " " +:+ p) t s p /\
  varyingLine st (t +:+ " " +:+ s +:+ " " +:+ p) = observe st t s p.
Proof.
  intros Hk Hlen Hs Hp.
  assert (Ht : String.index 0 " " t = None).
  { destruct (knownType_cases t Hk) as [-> | [-> | ->]]; reflexivity. }
  assert (Hline : t +:+ " " +:+ s +:+ " " +:+ p <> "").
  { destruct (knownType_cases t Hk) as [-> | [-> | ->]]; discriminate. }
  pose proof (SplitN_entry t s p Ht Hs) as Hsplit.
  split; [by split|].
  unfold varyingLine. rewrite bool_decide_eq_false_2 by done.
  rewrite Hsplit, Hk. simpl negb. cbv iota.
  rewrite bool_decide_eq_false_2 by done.
  by rewrite bool_decide_eq_false_2 by (by intros []).
Qed.

Lemma varyingLine_entry_witness :
  lineEntry ("blob" +:+ " " +:+ Fake.oid "a" +:+ " " +:+ "my notes.txt")
    "blob" (Fake.oid "a") "my notes.txt" /\
  varyingLine vstate0 ("blob" +:+ " " +:+ Fake.oid "a" +:+ " " +:+ "my notes.txt")
    = observe vstate0 "blob" (Fake.oid "a") "my notes.txt".
Proof.
  apply (varyingLine_entry vstate0 "blob" (Fake.oid "a") "my notes.txt").
  - reflexivity.
  - reflexivity.
  - reflexivity.
  - discriminate.
Defined.

(** ** Remote URLs *)

Lemma remotesURL_members (all : list string) (u x : string) :
  x ∈ remotesURL all u <->
  x ∈ all \/ (x = u /\ (Contains u "github.com" = true \/ Contains u "gitlab.com" = true)).
Proof.
  unfold remotesURL.
  destruct (Contains u "github.com") eqn:Hhub, (Contains u "gitlab.com") eqn:Hlab; simpl;
    try (case_bool_decide as Hin; simpl; [|rewrite elem_of_app, list_elem_of_singleton]);
    split; try tauto; try (intros [H | [-> H]]; by auto).
  all: intros [H | [_ [H | H]]]; auto; discriminate.
Qed.

Lemma remotesURL_NoDup (all : list string) (u : string) :
  NoDup all -> NoDup (remotesURL all u).
Proof.
  intros Hnd. unfold remotesURL.
  destruct (negb (Contains u "github.com") && negb (Contains u "gitlab.com")); [done|].
  case_bool_decide as Hin; simpl; [done|].
  apply NoDup_app. split; [done|]. split; [|apply NoDup_singleton].
  intros x Hx Hu. apply list_elem_of_singleton in Hu. by subst.
Qed.

Lemma foldl_remotesURL_members (urls all : list string) (x : string) :
  x ∈ foldl remotesURL all urls <->
  x ∈ all \/
  (x ∈ urls /\ (Contains x "github.com" = true \/ Contains x "gitlab.com" = true)).
Proof.
  revert all. induction urls as [|u urls IH]; intros all; simpl.
  - split; [auto | intros [H | [H _]]; [done | by apply elem_of_nil in H]].
  - rewrite IH, remotesURL_members, elem_of_cons. split.
    + intros [[H | [-> H]] | [H1 H2]]; auto.
    + intros [H | [[-> | H1] H2]]; auto.
Qed.

Lemma foldl_remotesURL_NoDup (urls all : list string) :
  NoDup all -> NoDup (foldl remotesURL all urls).
Proof.
  revert all. induction urls as [|u urls IH]; intros all Hnd; simpl; [done|].
  apply IH. by apply remotesURL_NoDup.
Qed.

Lemma foldl_remotesRemote_members (g : Git) (remotes all : list string) (x : string) :
  x ∈ foldl (remotesRemote g) all remotes <->
  x ∈ all \/
  ((Contains x "github.com" = true \/ Contains x "gitlab.com" = true) /\
   exists remote urls,
     remote ∈ remotes /\
     RunTrimSplit g ["remote"; "get-url"; "--all"; remote] "" LF = Ok urls /\
     x ∈ urls).
Proof.
  revert all. induction remotes as [|remote remotes IH]; intros all; simpl.
  - split; [auto|]. intros [H | [_ (remote & urls & H & _)]]; [done | by apply elem_of_nil in H].
  - rewrite IH. unfold remotesRemote at 1.
    destruct (RunTrimSplit g ["remote"; "get-url"; "--all"; remote] "" LF) as [urls|e] eqn:Hurls.
    + rewrite foldl_remotesURL_members. split.
      * intros [[H | [H1 H2]] | [H1 (r & us & Hr & Hus & Hx)]].
        -- by left.
        -- right. split; [done|]. exists remote, urls. split; [apply list_elem_of_here | done].
        -- right. split; [done|]. exists r, us. split; [by apply list_elem_of_further | done].
      * intros [H | [H1 (r & us & Hr & Hus & Hx)]]; [by left; left|].
        apply elem_of_cons in Hr as [-> | Hr].
        -- rewrite Hurls in Hus. injection Hus as <-. left. right. done.
        -- right. split; [done|]. by exists r, us.
    + split.
      * intros [H | [H1 (r & us & Hr & Hus & Hx)]]; [by left|].
        right. split; [done|]. exists r, us. split; [by apply list_elem_of_further | done].
      * intros [H | [H1 (r & us & Hr & Hus & Hx)]]; [by left|].
        apply elem_of_cons in Hr as [-> | Hr]; [by rewrite Hurls in Hus|].
        right. split; [done|]. by exists r, us.
Qed.

(** Once the remotes are listed, [Remotes] succeeds, whether or not the URLs
    of each of them can be queried.  The URLs it returns are exactly the
    ones that some listed remote reports and that mention [github.com] or
    [gitlab.com]; a remote whose URLs cannot be queried contributes
    nothing. *)
Theorem Remotes_members (g : Git) (remotes : list string) :
  RunTrimSplit g ["remote"] "" LF = Ok remotes ->
  exists all,
    Remotes g = Ok all /\
    forall u, u ∈ all <->
      (Contains u "github.com" = true \/ Contains u "gitlab.com" = true) /\
      exists remote urls,
        remote ∈ remotes /\
        RunTrimSplit g ["remote"; "get-url"; "--all"; remote] "" LF = Ok urls /\
        u ∈ urls.
Proof.
  unfold Remotes. intros Hremotes. rewrite Hremotes. simpl.
  exists (foldl (remotesRemote g) [] remotes). split; [done|]. intros u.
  rewrite foldl_remotesRemote_members. split; [|auto].
  intros [H | H]; [by apply elem_of_nil in H | done].
Qed.

(** [Remotes] never returns a URL twice, however many remotes share it. *)
Theorem Remotes_NoDup (g : Git) (all : list string) :
  Remotes g = Ok all -> NoDup all.
Proof.
  unfold Remotes. intros H. apply bind_Ok in H as (remotes & _ & [= <-]).
  generalize (NoDup_nil_2 (A := string)). generalize (@nil string).
  induction remotes as [|remote remotes IH]; intros all Hnd; simpl; [done|].
  apply IH. unfold remotesRemote.
  destruct (RunTrimSplit g _ "" LF); [by apply foldl_remotesURL_NoDup | done].
Qed.

(** ** The response stream *)

Lemma doRequest_passed {St : Type} (yield : St -> Item -> St * bool) (n : Net)
    (req : Request) (resp : HttpResponse) (mediaType : string) (params : string -> string)
    (s : St) :
  Do n req = Ok resp ->
  StatusCode resp = 200%Z ->
  Header resp "Merde-Server-API-Version" = apiResponseVersion ->
  ParseMediaType n (Header resp "Content-Type") = Ok (mediaType, params) ->
  HasPrefix mediaType "multipart/" = true ->
  doRequest yield n req s
    = partsLoop yield n (NewReader n (Body resp) (params "boundary")) s 0.
Proof.
  intros HDo Hstatus Hver Hmedia Hprefix. unfold doRequest. rewrite HDo.
  rewrite bool_decide_eq_true_2 by done.
  rewrite bool_decide_eq_false_2 by (by intros []).
  by rewrite Hmedia, Hprefix.
Qed.

(** Before it asks for a part, [doRequest] has either given up with exactly
    one error and no message, or found the response to have status 200, the
    expected protocol version and a [multipart/] media type; only then does
    it range over the parts. *)
Theorem doRequest_gates (n : Net) (req : Request) :
  (exists e, forall (St : Type) (yield : St -> Item -> St * bool) (s : St),
      doRequest yield n req s = ((yield s (None, Some e)).1, 0)) \/
  (exists resp mediaType params,
      Do n req = Ok resp /\
      StatusCode resp = 200%Z /\
      Header resp "Merde-Server-API-Version" = apiResponseVersion /\
      ParseMediaType n (Header resp "Content-Type") = Ok (mediaType, params) /\
      HasPrefix mediaType "multipart/" = true /\
      forall (St : Type) (yield : St -> Item -> St * bool) (s : St),
        doRequest yield n req s
        = partsLoop yield n (NewReader n (Body resp) (params "boundary")) s 0).
Proof.
  destruct (Do n req) as [resp|e] eqn:HDo.
  - destruct (decide (StatusCode resp = 200%Z)) as [Hstatus|Hstatus].
    + destruct (decide (Header resp "Merde-Server-API-Version" = apiResponseVersion))
        as [Hver|Hver].
      * destruct (ParseMediaType n (Header resp "Content-Type")) as [[mediaType params]|e]
          eqn:Hmedia.
        -- destruct (HasPrefix mediaType "multipart/") eqn:Hprefix.
           ++ right. exists resp, mediaType, params. repeat split; try done.
              intros St yield s. by apply (doRequest_passed yield n req resp mediaType params).
           ++ left. exists (ErrContentType mediaType). intros St yield s.
              unfold doRequest. rewrite HDo.
              rewrite bool_decide_eq_true_2 by done.
              rewrite bool_decide_eq_false_2 by (by intros []).
              by rewrite Hmedia, Hprefix.
        -- left. exists e. intros St yield s. unfold doRequest. rewrite HDo.
           rewrite bool_decide_eq_true_2 by done.
           rewrite bool_decide_eq_false_2 by (by intros []).
           by rewrite Hmedia.
      * left. exists (ErrVersion (Header resp "Merde-Server-API-Version")).
        intros St yield s. unfold doRequest. rewrite HDo.
        rewrite bool_decide_eq_true_2 by done.
        by rewrite bool_decide_eq_true_2 by done.
    + left. exists (ErrStatus (StatusCode resp) (URL req) (bytes (Body resp))).
      intros St yield s. unfold doRequest. rewrite HDo.
      by rewrite bool_decide_eq_false_2 by done.
  - left. exists e. intros St yield s. unfold doRequest. by rewrite HDo.
Qed.

(** A response with any status other than 200 ends the stream at once with
    one error that carries the status code, the URL of the request and what
    could be read of the body; the version and the content type are not
    looked at. *)
Theorem doRequest_status {St : Type} (yield : St -> Item -> St * bool) (n : Net)
    (req : Request) (resp : HttpResponse) (s : St) :
  Do n req = Ok resp ->
  StatusCode resp <> 200%Z ->
  let e := ErrStatus (StatusCode resp) (URL req) (bytes (Body resp)) in
  doRequest yield n req s = ((yield s (None, Some e)).1, 0) /\
  items n req = [(None, Some e)].
Proof.
  intros HDo Hstatus e.
  assert (Hrun : forall (T : Type) (y : T -> Item -> T * bool) (t : T),
             doRequest y n req t = ((y t (None, Some e)).1, 0)).
  { intros T y t. unfold doRequest. rewrite HDo.
    by rewrite bool_decide_eq_false_2 by done. }
  split; [apply Hrun|]. unfold items. by rewrite Hrun.
Qed.

Lemma partsLoop_record_shape (n : Net) (parts : list (Result Part)) (log : list Item) (k : nat) :
  exists msgs tail k',
    partsLoop record n parts log k = (log ++ msgs ++ tail, k') /\
    Forall shapedMessage msgs /\
    (tail = [] \/ exists e, tail = [(None, Some e)]) /\
    k + length msgs <= k' <= k + length parts.
Proof.
  revert log k. induction parts as [|q parts IH]; intros log k.
  - exists [], [], k. simpl. rewrite app_nil_r. repeat split; auto with lia.
  - destruct q as [p|e].
    + simpl. case_bool_decide as Hjson.
      * destruct (Decode n (partBody p)) as [r|e] eqn:Hdec.
        -- destruct (IH (log ++ [(Some (setIsJSON r true), None)]) (S k))
             as (msgs & tail & k' & Heq & Hmsgs & Htail & Hlen).
           exists ((Some (setIsJSON r true), None) :: msgs), tail, k'.
           rewrite <- app_assoc in Heq. simpl.
           split; [exact Heq|]. repeat split; try done; try lia.
           constructor; [|done]. eexists. split; [done|]. by left.
        -- exists [], [(None, Some e)], (S k). simpl. repeat split; eauto with lia.
      * case_bool_decide as Hbin.
        -- unfold Copy. destruct (failure (partBody p)) as [e|] eqn:Hfail.
           ++ exists [], [(None, Some e)], (S k). simpl. repeat split; eauto with lia.
           ++ destruct (IH (log ++ [(Some (binaryResponse (bytes (partBody p))), None)]) (S k))
                as (msgs & tail & k' & Heq & Hmsgs & Htail & Hlen).
              exists ((Some (binaryResponse (bytes (partBody p))), None) :: msgs), tail, k'.
              rewrite <- app_assoc in Heq. simpl.
              split; [exact Heq|]. repeat split; try done; try lia.
              constructor; [|done]. eexists. split; [done|]. right. by eexists.
        -- exists [], [(None, Some (ErrPartType (partContentType p)))], (S k).
           simpl. repeat split; eauto with lia.
    + exists [], [(None, Some e)], k. simpl. repeat split; eauto with lia.
Qed.

(** Whatever the response, the items of the stream are messages followed by
    at most one error, which is then the last item: nothing is yielded
    after an error.  Every message is either tagged as JSON or a binary
    response that holds only its data, and no more messages are yielded
    than parts were read. *)
Theorem items_shape (n : Net) (req : Request) :
  exists msgs tail,
    items n req = msgs ++ tail /\
    Forall shapedMessage msgs /\
    (tail = [] \/ exists e, tail = [(None, Some e)]) /\
    length msgs <= (doRequest record n req []).2.
Proof.
  assert (Hfail : forall e,
             doRequest record n req [] = ([(None, Some e)], 0) ->
             exists msgs tail,
               items n req = msgs ++ tail /\ Forall shapedMessage msgs /\
               (tail = [] \/ exists e, tail = [(None, Some e)]) /\
               length msgs <= (doRequest record n req []).2).
  { intros e He. exists [], [(None, Some e)]. unfold items. rewrite He. simpl.
    repeat split; eauto. }
  destruct (Do n req) as [resp|e] eqn:HDo;
    [|apply (Hfail e); unfold doRequest; by rewrite HDo].
  destruct (decide (StatusCode resp = 200%Z)) as [Hstatus|Hstatus];
    [|eapply Hfail; unfold doRequest; rewrite HDo;
      by rewrite bool_decide_eq_false_2 by done].
  destruct (decide (Header resp "Merde-Server-API-Version" = apiResponseVersion))
    as [Hver|Hver];
    [|eapply Hfail; unfold doRequest; rewrite HDo;
      rewrite bool_decide_eq_true_2 by done;
      by rewrite bool_decide_eq_true_2 by done].
  destruct (ParseMediaType n (Header resp "Content-Type")) as [[mediaType params]|e] eqn:Hmedia;
    [|apply (Hfail e); unfold doRequest; rewrite HDo;
      rewrite bool_decide_eq_true_2 by done;
      rewrite bool_decide_eq_false_2 by (by intros []); by rewrite Hmedia].
  destruct (HasPrefix mediaType "multipart/") eqn:Hprefix;
    [|eapply Hfail; unfold doRequest; rewrite HDo;
      rewrite bool_decide_eq_true_2 by done;
      rewrite bool_decide_eq_false_2 by (by intros []); by rewrite Hmedia, Hprefix].
  unfold items.
  rewrite (doRequest_passed record n req resp mediaType params [] HDo Hstatus Hver Hmedia Hprefix).
  destruct (partsLoop_record_shape n (NewReader n (Body resp) (params "boundary")) [] 0)
    as (msgs & tail & k' & Heq & Hmsgs & Htail & Hlen).
  exists msgs, tail. rewrite Heq. simpl. repeat split; try done. lia.
Qed.

(** A consumer that declines to go on after a message is not asked again
    and no further part is read: the loop returns with that one part
    handed out, whatever follows it in the stream. *)
Theorem partsLoop_stops (n : Net) (p : Part) :
  decodable n (Ok p) ->
  exists r,
    shapedMessage (Some r, None) /\
    forall (St : Type) (yield : St -> Item -> St * bool) (s : St)
           (rest : list (Result Part)) (k : nat),
      (yield s (Some r, None)).2 = false ->
      partsLoop yield n (Ok p :: rest) s k = ((yield s (Some r, None)).1, S k).
Proof.
  intros [[Hct [r Hr]] | [Hct Hr]].
  - exists (setIsJSON r true). split; [eexists; split; [done | by left]|].
    intros St yield s rest k Hstop. simpl.
    rewrite bool_decide_eq_true_2 by done. rewrite Hr.
    destruct (yield s (Some (setIsJSON r true), None)) as [s' more].
    simpl in Hstop. by subst more.
  - exists (binaryResponse (bytes (partBody p))).
    split; [eexists; split; [done | right; by eexists]|].
    intros St yield s rest k Hstop. simpl.
    rewrite bool_decide_eq_false_2 by (rewrite Hct; discriminate).
    rewrite bool_decide_eq_true_2 by done. unfold Copy. rewrite Hr.
    destruct (yield s (Some (binaryResponse (bytes (partBody p))), None)) as [s' more].
    simpl in Hstop. by subst more.
Qed.

Lemma partsLoop_record_in_order (n : Net) (parts : list (Result Part))
    (log : list Item) (k : nat) :
  Forall (decodable n) parts ->
  exists msgs,
    Forall2 (partMessage n) parts msgs /\
    partsLoop record n parts log k = (log ++ msgs, k + length parts).
Proof.
  intros Hparts. revert log k. induction Hparts as [|q parts Hq _ IH]; intros log k.
  - exists []. simpl. rewrite app_nil_r, Nat.add_0_r. split; [constructor | done].
  - destruct q as [p|e]; [|done].
    destruct Hq as [[Hct [r Hr]] | [Hct Hr]].
    + destruct (IH (log ++ [(Some (setIsJSON r true), None)]) (S k)) as (msgs & Hmsgs & Heq).
      exists ((Some (setIsJSON r true), None) :: msgs). split.
      * constructor; [|done]. exists p. split; [done|]. left. split; [done|]. by exists r.
      * simpl. rewrite bool_decide_eq_true_2 by done. rewrite Hr.
        rewrite <- app_assoc in Heq. simpl in *.
        replace (k + S (length parts)) with (S (k + length parts)) by lia. exact Heq.
    + destruct (IH (log ++ [(Some (binaryResponse (bytes (partBody p))), None)]) (S k))
        as (msgs & Hmsgs & Heq).
      exists ((Some (binaryResponse (bytes (partBody p))), None) :: msgs). split.
      * constructor; [|done]. exists p. split; [done|]. by right.
      * simpl. rewrite bool_decide_eq_false_2 by (rewrite Hct; discriminate).
        rewrite bool_decide_eq_true_2 by done. unfold Copy. rewrite Hr.
        rewrite <- app_assoc in Heq. simpl in *.
        replace (k + S (length parts)) with (S (k + length parts)) by lia. exact Heq.
Qed.

(** A response that passes the checks and whose parts all decode is yielded
    part by part in arrival order: one message per part, a JSON part as its
    decoded document tagged as JSON, a binary part as its bytes, and no
    error at the end. *)
Theorem doRequest_in_order (n : Net) (req : Request) (resp : HttpResponse)
    (mediaType : string) (params : string -> string) (parts : list (Result Part)) :
  Do n req = Ok resp ->
  StatusCode resp = 200%Z ->
  Header resp "Merde-Server-API-Version" = apiResponseVersion ->
  ParseMediaType n (Header resp "Content-Type") = Ok (mediaType, params) ->
  HasPrefix mediaType "multipart/" = true ->
  NewReader n (Body resp) (params "boundary") = parts ->
  Forall (decodable n) parts ->
  exists msgs,
    Forall2 (partMessage n) parts msgs /\
    doRequest record n req [] = (msgs, length parts).
Proof.
  intros HDo Hstatus Hver Hmedia Hprefix Hparts Hdec.
  rewrite (doRequest_passed record n req resp mediaType params [] HDo Hstatus Hver Hmedia Hprefix).
  rewrite Hparts.
  destruct (partsLoop_record_in_order n parts [] 0 Hdec) as (msgs & Hmsgs & Heq).
  exists msgs. by split.
Qed.

(** ** Processing responses *)

(** What [Process] does, event by event.  A binary response is left alone:
    nothing is run or written, and it is reported as not processed.  For a
    JSON response the ref is created first, exactly when both its name and
    its id are given; when this fails, [Process] gives up with that error,
    nothing written and no exit.  Otherwise it writes the text for standard
    output and then the text for standard error, each exactly when it is
    not empty, and only then exits with the exit code when that is
    positive, and reports the response as processed when it is not.  It
    never ends in a panic. *)
Theorem Process_spec (r : Response) (g : Git) (log : list event) :
  let cmd := Invoked ["update-ref"; "--stdin"; "-z"] (createRefStdin (Ref r) (SHA r)) in
  let out := if decide (Stdout r = "") then [] else [WroteStdout (Stdout r)] in
  let err := if decide (Stderr r = "") then [] else [WroteStderr (Stderr r)] in
  let finish :=
    if decide (0 < ExitCode r)%Z then Exits (ExitCode r) else Returns true in
  (IsJSON r = false -> Process r g log = (log, Returns false)) /\
  (IsJSON r = true -> Ref r <> "" -> SHA r <> "" ->
     match CreateRef g (Ref r) (SHA r) with
     | Some e => Process r g log = (log ++ [cmd], Fails e)
     | None => Process r g log = (log ++ [cmd] ++ out ++ err, finish)
     end) /\
  (IsJSON r = true -> Ref r = "" \/ SHA r = "" ->
     Process r g log = (log ++ out ++ err, finish)) /\
  (Process r g log).2 <> Panics.
Proof.
  intros cmd out err finish.
  assert (Hfinish : forall l : list event,
             (if (0 <? ExitCode r)%Z then (l, Exits (ExitCode r)) else (l, Returns true))
             = (l, finish)).
  { intros l. unfold finish. destruct (Z.ltb_spec 0 (ExitCode r)).
    - by rewrite decide_True.
    - by rewrite decide_False by lia. }
  assert (Htexts : forall l : list event,
             (if negb (bool_decide (Stderr r = ""))
              then (if negb (bool_decide (Stdout r = ""))
                    then l ++ [WroteStdout (Stdout r)] else l) ++ [WroteStderr (Stderr r)]
              else (if negb (bool_decide (Stdout r = ""))
                    then l ++ [WroteStdout (Stdout r)] else l)) = l ++ out ++ err).
  { intros l. unfold out, err.
    destruct (decide (Stdout r = "")) as [Ho|Ho], (decide (Stderr r = "")) as [He|He].
    - rewrite !bool_decide_eq_true_2 by done. simpl. by rewrite app_nil_r.
    - rewrite (bool_decide_eq_true_2 (Stdout r = "")) by done.
      by rewrite (bool_decide_eq_false_2 (Stderr r = "")) by done.
    - rewrite (bool_decide_eq_false_2 (Stdout r = "")) by done.
      by rewrite (bool_decide_eq_true_2 (Stderr r = "")) by done.
    - rewrite !bool_decide_eq_false_2 by done. simpl. by rewrite <- app_assoc. }
  assert (Hbinary : IsJSON r = false -> Process r g log = (log, Returns false)).
  { intros Hjson. unfold Process. by rewrite Hjson. }
  assert (Hcreate : IsJSON r = true -> Ref r <> "" -> SHA r <> "" ->
            match CreateRef g (Ref r) (SHA r) with
            | Some e => Process r g log = (log ++ [cmd], Fails e)
            | None => Process r g log = (log ++ [cmd] ++ out ++ err, finish)
            end).
  { intros Hjson Href Hsha. unfold Process. rewrite Hjson. simpl.
    rewrite (bool_decide_eq_false_2 (Ref r = "")) by done.
    rewrite (bool_decide_eq_false_2 (SHA r = "")) by done. simpl.
    destruct (CreateRef g (Ref r) (SHA r)) as [e|]; [done|].
    rewrite Hfinish, Htexts. by rewrite <- app_assoc. }
  assert (Hplain : IsJSON r = true -> Ref r = "" \/ SHA r = "" ->
            Process r g log = (log ++ out ++ err, finish)).
  { intros Hjson Hnone. unfold Process. rewrite Hjson. simpl.
    assert (negb (bool_decide (Ref r = "")) && negb (bool_decide (SHA r = "")) = false)
      as ->.
    { destruct Hnone as [H|H]; rewrite (bool_decide_eq_true_2 _ H); simpl;
        [done | apply andb_false_r]. }
    by rewrite Hfinish, Htexts. }
  split; [exact Hbinary|]. split; [exact Hcreate|]. split; [exact Hplain|].
  destruct (IsJSON r) eqn:Hjson.
  - destruct (decide (Ref r = "")) as [Href|Href].
    { rewrite Hplain by auto. unfold finish. by destruct (decide (0 < ExitCode r)%Z). }
    destruct (decide (SHA r = "")) as [Hsha|Hsha].
    { rewrite Hplain by auto. unfold finish. by destruct (decide (0 < ExitCode r)%Z). }
    specialize (Hcreate eq_refl Href Hsha).
    destruct (CreateRef g (Ref r) (SHA r)); rewrite Hcreate; [done|].
    unfold finish. by destruct (decide (0 < ExitCode r)%Z).
  - by rewrite Hbinary.
Qed.

(** ** The commands' loops over the response stream *)

Lemma Process_cases (r : Response) (g : Git) (log : list event) :
  (Process r g log).2 <> Panics /\
  (IsJSON r = true -> (Process r g log).2 <> Returns false) /\
  (IsJSON r = false -> Process r g log = (log, Returns false)).
Proof.
  unfold Process. destruct (IsJSON r); simpl; [|done].
  destruct (if negb (bool_decide (Ref r = "")) && negb (bool_decide (SHA r = ""))
            then CreateRef g (Ref r) (SHA r) else None); [done|].
  by destruct (0 <? ExitCode r)%Z.
Qed.

Lemma partsLoop_inv {St : Type} (yield : St -> Item -> St * bool) (P : St -> Prop)
    (n : Net) (parts : list (Result Part)) (s : St) (k : nat) :
  (forall s it, P s -> shapedMessage it \/ (exists e, it = (None, Some e)) -> P (yield s it).1) ->
  P s -> P (partsLoop yield n parts s k).1.
Proof.
  intros Hstep. revert s k. induction parts as [|q parts IH]; intros s k Hs; [done|].
  assert (Hfail : forall e, P (fail yield s e)).
  { intros e. apply Hstep; [done | right; by exists e]. }
  destruct q as [p|e]; simpl; [|apply Hfail].
  case_bool_decide as Hjson.
  - destruct (Decode n (partBody p)) as [r|e]; simpl; [|apply Hfail].
    assert (Hmsg : P (yield s (Some (setIsJSON r true), None)).1).
    { apply Hstep; [done|]. left. eexists. split; [done | by left]. }
    destruct (yield s (Some (setIsJSON r true), None)) as [s' more].
    destruct more; [by apply IH | done].
  - case_bool_decide as Hbin; [|apply Hfail].
    destruct (Copy (partBody p)) as [buf|e]; simpl; [|apply Hfail].
    assert (Hmsg : P (yield s (Some (binaryResponse buf), None)).1).
    { apply Hstep; [done|]. left. eexists. split; [done | right; by eexists]. }
    destruct (yield s (Some (binaryResponse buf), None)) as [s' more].
    destruct more; [by apply IH | done].
Qed.

Lemma doRequest_inv {St : Type} (yield : St -> Item -> St * bool) (P : St -> Prop)
    (n : Net) (req : Request) (s : St) :
  (forall s it, P s -> shapedMessage it \/ (exists e, it = (None, Some e)) -> P (yield s it).1) ->
  P s -> P (doRequest yield n req s).1.
Proof.
  intros Hstep Hs.
  assert (Hfail : forall e, P (fail yield s e)).
  { intros e. apply Hstep; [done | right; by exists e]. }
  unfold doRequest.
  destruct (Do n req) as [resp|e]; [|apply Hfail].
  case_bool_decide; [|apply Hfail].
  case_bool_decide; [apply Hfail|].
  destruct (ParseMediaType n _) as [[mediaType params]|e]; [|apply Hfail].
  destruct (HasPrefix mediaType "multipart/"); simpl; [|apply Hfail].
  by apply partsLoop_inv.
Qed.

(** Neither kind of command can hit a nil pointer while it ranges over the
    stream: every item [doRequest] yields carries an error or a message,
    and a message that is not JSON always carries data to unpack. *)
Theorem range_never_panics (g : Git) (n : Net) (req : Request) :
  (doRoot_range g n req).1.2 <> Panics /\
  (processDeconflictRequest_range g n req).1.2 <> Panics.
Proof.
  assert (Hend : forall body,
             ended (doRequest body n req caller0).1 <> Some Panics ->
             (rangeOver body n req).1.2 <> Panics).
  { intros body H. unfold rangeOver.
    destruct (doRequest body n req caller0) as [st consumed]. simpl in *.
    destruct (ended st) as [o|]; simpl; [congruence | done]. }
  split; apply Hend;
    apply (doRequest_inv _ (fun st => ended st <> Some Panics)); try done.
  - intros st it _ [(r & -> & _) | (e & ->)]; simpl; [|done].
    pose proof (Process_cases r g (events st)) as (Hnp & _ & _).
    destruct (Process r g (events st)) as [log [done0|e|code|]]; simpl; done.
  - intros st it _ [(r & -> & Hshape) | (e & ->)]; simpl; [|done].
    pose proof (Process_cases r g (events st)) as (Hnp & Hjson & Hbin).
    destruct Hshape as [Hshape | (buf & ->)].
    + specialize (Hjson Hshape).
      destruct (Process r g (events st)) as [log [[|]|e|code|]]; simpl; done.
    + rewrite (Hbin eq_refl). simpl.
      by destruct (UnpackObjects g buf).
Qed.

Lemma Process_exit (r : Response) (g : Git) (log : list event) :
  (0 < ExitCode r)%Z ->
  Ref r = "" \/ SHA r = "" \/ CreateRef g (Ref r) (SHA r) = None ->
  (Process (setIsJSON r true) g log).2 = Exits (ExitCode r).
Proof.
  intros Hpos Href. unfold Process. simpl.
  assert (Hnone : (if negb (bool_decide (Ref r = "")) && negb (bool_decide (SHA r = ""))
                   then CreateRef g (Ref r) (SHA r) else None) = None).
  { destruct Href as [H | [H | H]].
    - by rewrite (bool_decide_eq_true_2 _ H).
    - rewrite (bool_decide_eq_true_2 _ H). by rewrite andb_false_r.
    - by destruct (_ && _). }
  rewrite Hnone. apply Z.ltb_lt in Hpos. by rewrite Hpos.
Qed.

(** An exit directive ends everything: when the first part is a JSON
    document with a positive exit code (and the ref it may name could be
    created), the command exits with that code after what [Process] did,
    one part has been read, and whatever follows in the stream is not
    asked for. *)
Theorem range_exit_directive (g : Git) (n : Net) (req : Request) (resp : HttpResponse)
    (mediaType : string) (params : string -> string) (p : Part) (r : Response)
    (rest : list (Result Part)) :
  Do n req = Ok resp ->
  StatusCode resp = 200%Z ->
  Header resp "Merde-Server-API-Version" = apiResponseVersion ->
  ParseMediaType n (Header resp "Content-Type") = Ok (mediaType, params) ->
  HasPrefix mediaType "multipart/" = true ->
  NewReader n (Body resp) (params "boundary") = Ok p :: rest ->
  partContentType p = "application/json" ->
  Decode n (partBody p) = Ok r ->
  (0 < ExitCode r)%Z ->
  Ref r = "" \/ SHA r = "" \/ CreateRef g (Ref r) (SHA r) = None ->
  let done := ((Process (setIsJSON r true) g []).1, Exits (ExitCode r), 1) in
  doRoot_range g n req = done /\ processDeconflictRequest_range g n req = done.
Proof.
  intros HDo Hstatus Hver Hmedia Hprefix Hparts Hct Hdec Hpos Href done.
  pose proof (Process_exit r g [] Hpos Href) as Hexit.
  unfold doRoot_range, processDeconflictRequest_range, rangeOver.
  rewrite !(doRequest_passed _ n req resp mediaType params caller0 HDo Hstatus Hver Hmedia Hprefix).
  rewrite Hparts. simpl.
  rewrite bool_decide_eq_true_2 by done. rewrite Hdec. simpl.
  destruct (Process (setIsJSON r true) g []) as [log o]. simpl in Hexit. subst o.
  by split.
Qed.

Lemma partsLoop_binary (g : Git) (n : Net) (bodies : list string) (log : list event) (k : nat) :
  (forall b, b ∈ bodies -> UnpackObjects g b = None) ->
  partsLoop (unpackingBody g) n ((fun b => Ok (Examples.binaryPart b)) <$> bodies)
    {| events := log; ended := None |} k
  = ({| events := log ++ ((fun b => Invoked ["unpack-objects"; "-q"] b) <$> bodies);
        ended := None |}, k + length bodies) /\
  partsLoop (ignoringBody g) n ((fun b => Ok (Examples.binaryPart b)) <$> bodies)
    {| events := log; ended := None |} k
  = ({| events := log; ended := None |}, k + length bodies).
Proof.
  revert log k. induction bodies as [|b bodies IH]; intros log k Hunpack.
  - simpl. by rewrite app_nil_r, Nat.add_0_r.
  - assert (Hb : UnpackObjects g b = None) by (apply Hunpack, list_elem_of_here).
    assert (Hrest : forall b', b' ∈ bodies -> UnpackObjects g b' = None).
    { intros b' Hin. by apply Hunpack, list_elem_of_further. }
    destruct (IH (log ++ [Invoked ["unpack-objects"; "-q"] b]) (S k) Hrest) as [IH1 _].
    destruct (IH log (S k) Hrest) as [_ IH2].
    split.
    + cbn. rewrite Hb. cbn. rewrite <- app_assoc in IH1.
      replace (k + S (length bodies)) with (S (k + length bodies)) by lia. exact IH1.
    + cbn. replace (k + S (length bodies)) with (S (k + length bodies)) by lia. exact IH2.
Qed.

(** Binary parts are object packs for [processDeconflictRequest] and nothing
    at all for the other commands: for a stream of binary parts the former
    runs [unpack-objects] once per part, in arrival order, on the bytes of
    that part, while [doRoot], [doAuth] and [doHelp] read the parts and do
    nothing with them. *)
Theorem range_binary (g : Git) (n : Net) (req : Request) (resp : HttpResponse)
    (mediaType : string) (params : string -> string) (bodies : list string) :
  Do n req = Ok resp ->
  StatusCode resp = 200%Z ->
  Header resp "Merde-Server-API-Version" = apiResponseVersion ->
  ParseMediaType n (Header resp "Content-Type") = Ok (mediaType, params) ->
  HasPrefix mediaType "multipart/" = true ->
  NewReader n (Body resp) (params "boundary")
    = (fun b => Ok (Examples.binaryPart b)) <$> bodies ->
  (forall b, b ∈ bodies -> UnpackObjects g b = None) ->
  processDeconflictRequest_range g n req
    = ((fun b => Invoked ["unpack-objects"; "-q"] b) <$> bodies, Returns tt, length bodies) /\
  doRoot_range g n req = ([], Returns tt, length bodies).
Proof.
  intros HDo Hstatus Hver Hmedia Hprefix Hparts Hunpack.
  destruct (partsLoop_binary g n bodies [] 0 Hunpack) as [H1 H2].
  unfold doRoot_range, processDeconflictRequest_range, rangeOver.
  rewrite !(doRequest_passed _ n req resp mediaType params caller0 HDo Hstatus Hver Hmedia Hprefix).
  rewrite Hparts. unfold caller0. rewrite H1, H2. done.
Qed.

(** A failure of the transport or of the protocol checks reaches the command
    as its error, with nothing done and no part read. *)
Theorem range_gate_error (g : Git) (n : Net) (req : Request) (e : error) :
  (forall (St : Type) (yield : St -> Item -> St * bool) (s : St),
      doRequest yield n req s = ((yield s (None, Some e)).1, 0)) ->
  doRoot_range g n req = ([], Fails e, 0) /\
  processDeconflictRequest_range g n req = ([], Fails e, 0).
Proof.
  intros Hgate. unfold doRoot_range, processDeconflictRequest_range, rangeOver.
  by rewrite !Hgate.
Qed.

(** ** Choosing the refs *)

(** [AbbrevRef] answers with the abbreviation only when the toolchain gave
    one that is not empty and differs from the name asked for; in every
    other case its answer is the one of [ResolveRef] for that name. *)
Theorem AbbrevRef_Ok (g : Git) (refName out : string) :
  AbbrevRef g refName = Ok out ->
  (RunTrimString g ["rev-parse"; "--abbrev-ref=loose"; refName] "" = Ok out /\
   out <> "" /\ out <> refName) \/
  ResolveRef g refName = Ok out.
Proof.
  unfold AbbrevRef. intros H. apply bind_Ok in H as (abbrev & Hrun & H).
  destruct (bool_decide (abbrev = "") || bool_decide (abbrev = refName)) eqn:Hsame.
  - by right.
  - injection H as <-. left. apply orb_false_iff in Hsame as [H1 H2].
    apply bool_decide_eq_false in H1, H2. done.
Qed.

(** When [mainTopic] succeeds there were at most two arguments, at most one
    for [merge], and every ref that was named on the command line, and not
    as the empty string, is returned as it was given. *)
Theorem mainTopic_Done (g : GitX) (verb : string) (args : list string) (m t : string) :
  mainTopic g verb args = Done (m, t) ->
  length args <= 2 /\
  (verb = "merge" -> length args <= 1) /\
  (forall a, args !! 0 = Some a -> a <> "" -> m = a) /\
  (forall b, args !! 1 = Some b -> b <> "" -> t = b).
Proof.
  unfold mainTopic.
  assert (Hrest : forall mainRef topicRef,
             match (if bool_decide (topicRef = "") then AbbrevRef g "HEAD" else Ok topicRef) with
             | Err e => Fail (FromBelow e)
             | Ok topicRef0 =>
                 if bool_decide (mainRef = "") then
                   match HasUpstream g topicRef0 with
                   | Err e => Fail (FromBelow e)
                   | Ok false =>
                       Fail (Errorf ("no upstream set for " +:+ topicRef0 +:+
                                     ", please explicitly specify a main branch: merde " +:+
                                     verb +:+ " <main>"))
                   | Ok true =>
                       match AbbrevRef g (topicRef0 +:+ "@{upstream}") with
                       | Err e => Fail (FromBelow e)
                       | Ok upstream => Done (upstream, topicRef0)
                       end
                   end
                 else Done (mainRef, topicRef0)
             end = Done (m, t) ->
             (mainRef <> "" -> m = mainRef) /\ (topicRef <> "" -> t = topicRef)).
  { intros mainRef topicRef H.
    case_bool_decide as Htopic.
    - split; [|done]. intros Hmain.
      destruct (AbbrevRef g "HEAD") as [t0|]; [|done].
      rewrite bool_decide_eq_false_2 in H by done. by injection H.
    - case_bool_decide as Hmain.
      + split; [done|]. intros _.
        destruct (HasUpstream g topicRef) as [[|]|]; try done.
        destruct (AbbrevRef g (topicRef +:+ "@{upstream}")); [|done]. by injection H.
      + injection H as <- <-. done. }
  destruct args as [|a [|b [|c rest]]]; simpl.
  - intros _. repeat split; try lia; intros ? [=].
  - intros H. apply (Hrest a "") in H as [Hm _].
    repeat split; try lia; [intros ? [= <-]; auto | intros ? [=]].
  - case_bool_decide as Hverb; [done|]. intros H. apply (Hrest a b) in H as [Hm Ht].
    repeat split; try lia; [done | intros ? [= <-]; auto | intros ? [= <-]; auto].
  - done.
Qed.

(** Two refs named in full for a verb other than [merge] are taken as they
    are: main first, topic second, and the toolchain is not asked
    anything. *)
Theorem mainTopic_explicit_pair (g : GitX) (verb a b : string) :
  verb <> "merge" -> a <> "" -> b <> "" ->
  mainTopic g verb [a; b] = Done (a, b).
Proof.
  intros Hverb Ha Hb. unfold mainTopic, mainTopicArgs.
  rewrite (bool_decide_eq_false_2 (verb = "merge")) by done.
  rewrite (bool_decide_eq_false_2 (b = "")) by done.
  by rewrite (bool_decide_eq_false_2 (a = "")) by done.
Qed.

(** Without arguments the topic is what [HEAD] abbreviates to, and the main
    ref is taken from the topic's upstream, which then has to exist:
    [mainTopic] does not invent a main branch. *)
Theorem mainTopic_default (g : GitX) (verb m t : string) :
  mainTopic g verb [] = Done (m, t) ->
  AbbrevRef g "HEAD" = Ok t /\
  HasUpstream g t = Ok true /\
  AbbrevRef g (t +:+ "@{upstream}") = Ok m.
Proof.
  unfold mainTopic, mainTopicArgs.
  rewrite (bool_decide_eq_true_2 ("" = "")) by done.
  destruct (AbbrevRef g "HEAD") as [t0|] eqn:Htopic; [|done].
  destruct (HasUpstream g t0) as [[|]|] eqn:Hup; try done.
  destruct (AbbrevRef g (t0 +:+ "@{upstream}")) as [m0|] eqn:Hmain; [|done].
  by intros [= <- <-].
Qed.

(** ** The state of the work tree *)

Lemma statLoop_spec (fs : FS) (gitDir : string) (order : list (string * string)) :
  (statLoop fs gitDir order = Done tt <->
   forall file reason, (file, reason) ∈ order -> Exists fs (Join fs gitDir file) = false) /\
  (forall e, statLoop fs gitDir order = Fail e ->
     exists file reason,
       (file, reason) ∈ order /\ Exists fs (Join fs gitDir file) = true /\
       e = Errorf ("cannot proceed: " +:+ reason)).
Proof.
  induction order as [|[file reason] order [IH1 IH2]]; simpl.
  - split; [|done]. split; [|done]. intros _ ? ? H. by apply elem_of_nil in H.
  - destruct (Exists fs (Join fs gitDir file)) eqn:Hex.
    + split.
      * split; [done|]. intros H. specialize (H file reason (list_elem_of_here _ _)).
        congruence.
      * intros e [= <-]. exists file, reason. split; [apply list_elem_of_here | done].
    + split.
      * rewrite IH1. split.
        -- intros H f r Hin. apply elem_of_cons in Hin as [[= -> ->] | Hin]; eauto.
        -- intros H f r Hin. apply (H f r). by apply list_elem_of_further.
      * intros e He. destruct (IH2 e He) as (f & r & Hin & Hrest).
        exists f, r. split; [by apply list_elem_of_further | done].
Qed.

(** Whatever order the map of marker files is ranged over in, the check
    passes exactly when none of [MERGE_HEAD], [REBASE_HEAD],
    [CHERRY_PICK_HEAD] and [REVERT_HEAD] exists in the git directory, and
    when it fails the reason it gives belongs to a marker file that does
    exist. *)
Theorem requireCleanGitStatus_order (fs : FS) (order : list (string * string)) (g : Git)
    (gitDir : string) :
  order ≡ₚ filesReason ->
  GitDir g = Ok gitDir ->
  (requireCleanGitStatus fs order g = Done tt <->
   forall file reason,
     (file, reason) ∈ filesReason -> Exists fs (Join fs gitDir file) = false) /\
  (forall e, requireCleanGitStatus fs order g = Fail e ->
     exists file reason,
       (file, reason) ∈ filesReason /\ Exists fs (Join fs gitDir file) = true /\
       e = Errorf ("cannot proceed: " +:+ reason)).
Proof.
  intros Hperm Hdir. unfold requireCleanGitStatus. rewrite Hdir.
  destruct (statLoop_spec fs gitDir order) as [H1 H2]. split.
  - rewrite H1. split; intros H file reason Hin; apply (H file reason).
    + by rewrite Hperm.
    + by rewrite <- Hperm.
  - intros e He. destruct (H2 e He) as (file & reason & Hin & Hrest).
    exists file, reason. split; [by rewrite <- Hperm | done].
Qed.

(** ** Histories without a common commit *)

(** For tips without a common ancestor [MergePack] fails: the merge-base
    query exits with a status other than 0, which [MergeBases] takes for a
    failure, and [MergePack] returns that error.  What the toolchain would
    answer to any later query makes no difference, and no pack is made. *)
Theorem MergePack_unrelated (g : Git) (proc : process) (fuel : nat) (main topic : string)
    (status : Z) (out : string) :
  runs g proc ->
  proc ["merge-base"; "--all"; main; topic] "" = (status, out) ->
  status <> 0%Z ->
  MergePack (S fuel) g main topic = Some (Err (ErrExec (exitStatus status))) /\
  MergePack_need (S fuel) g main topic = Some (Err (ErrExec (exitStatus status))).
Proof.
  intros Hruns Hproc Hstatus.
  pose proof (MergeBases_exit g proc [main; topic] status out Hruns Hproc Hstatus) as Hmb.
  unfold MergePack, MergePack_need. simpl. unfold UniqueAncestorMergeBase_body.
  by rewrite Hmb.
Qed.

(** ** Instances *)

Lemma varyingPaths_members_witness :
  Fake.oid "y" ∈ [Fake.oid "a"; Fake.oid "b"; Fake.oid "y"; Fake.oid "x"; Fake.oid "a";
                  Fake.oid "x"] <->
  exists path t,
    variesAt (seenIn Examples.forkedRepo [Examples.tM; Examples.tT; Examples.tB]) path /\
    seenIn Examples.forkedRepo [Examples.tM; Examples.tT; Examples.tB] t (Fake.oid "y") path.
Proof.
  apply (varyingPaths_members Examples.forkedRepo [Examples.tM; Examples.tT; Examples.tB]).
  vm_compute. reflexivity.
Defined.

Lemma lsTree_unlisted (table : list (Fake.invocation * string)) (tree : string) :
  (forall i out, (i, out) ∈ table -> i <> Fake.lsTreeCmd tree) ->
  exists e, lsTree (Fake.git table) tree = Err e.
Proof.
  intros Hnot. unfold lsTree, RunSplit. simpl.
  change (["ls-tree"; "-r"; "-t"; "-z"; "--format=%(objecttype) %(objectname) %(path)"; tree], "")
    with (Fake.lsTreeCmd tree).
  induction table as [|[j out] table IH]; simpl; [by eexists|].
  rewrite bool_decide_eq_false_2.
  - apply IH. intros i out' Hin. apply (Hnot i out'). by apply list_elem_of_further.
  - intros Heq. apply (Hnot j out); [apply list_elem_of_here | done].
Defined.

Lemma mixedRepo_listed (tree : string) (lines lines' : list string) :
  lsTree Examples.mixedRepo tree = Ok lines ->
  lsTree Examples.mixedRepoShuffled tree = Ok lines' ->
  lines ≡ₚ lines'.
Proof.
  intros H H'.
  destruct (decide (tree = "t1")) as [->|H1].
  { vm_compute in H, H'. injection H as <-. injection H' as <-. apply perm_swap. }
  destruct (decide (tree = "t2")) as [->|H2].
  { vm_compute in H, H'. injection H as <-. injection H' as <-. apply perm_swap. }
  destruct (lsTree_unlisted
              [(Fake.lsTreeCmd "t1",
                Fake.entry "blob" (Fake.oid "a") "README" +:+
                Fake.entry "blob" (Fake.oid "x") "my notes.txt");
               (Fake.lsTreeCmd "t2",
                Fake.entry "blob" (Fake.oid "b") "README" +:+
                Fake.entry "blob" (Fake.oid "x") "my notes.txt")] tree) as [e He].
  - intros i out Hin Heq. subst i.
    repeat (apply elem_of_cons in Hin as [Hin | Hin]; [injection Hin as Ht _; by subst|]).
    by apply elem_of_nil in Hin.
  - unfold Examples.mixedRepo in H. rewrite He in H. discriminate H.
Defined.

Lemma varyingPaths_same_set_witness :
  Fake.oid "a" ∈ [Fake.oid "a"; Fake.oid "b"] <-> Fake.oid "a" ∈ [Fake.oid "b"; Fake.oid "a"].
Proof.
  apply (varyingPaths_same_set Examples.mixedRepo Examples.mixedRepoShuffled
           ["t1"; "t2"] ["t2"; "t1"]).
  - apply perm_swap.
  - apply mixedRepo_listed.
  - vm_compute. reflexivity.
  - vm_compute. reflexivity.
Defined.

Lemma row_seen (lines : list string) (t s p : string) :
  Examples.row t s p ∈ lines ->
  String.index 0 " " t = None -> String.index 0 " " s = None ->
  seen lines t s p.
Proof.
  intros Hin Ht Hs. exists (Examples.row t s p). split; [done|]. split.
  - unfold Examples.row. destruct t; discriminate.
  - by apply SplitN_entry.
Defined.

Lemma row_wellFormed (t s p : string) :
  knownType t = true -> String.length s = 40 -> String.index 0 " " s = None -> p <> "" ->
  wellFormed (Examples.row t s p).
Proof.
  intros Hk Hlen Hs Hp. right. exists t, s, p. repeat split; try done.
  - unfold Examples.row. destruct t; discriminate.
  - apply SplitN_entry; [|done].
    destruct (knownType_cases t Hk) as [-> | [-> | ->]]; reflexivity.
Defined.

Lemma listing_wellFormed (t1 s1 p1 t2 s2 p2 : string) :
  knownType t1 = true -> String.length s1 = 40 -> String.index 0 " " s1 = None -> p1 <> "" ->
  knownType t2 = true -> String.length s2 = 40 -> String.index 0 " " s2 = None -> p2 <> "" ->
  Forall wellFormed [Examples.row t1 s1 p1; Examples.row t2 s2 p2; ""].
Proof.
  intros. apply Forall_cons_2; [by apply row_wellFormed|].
  apply Forall_cons_2; [by apply row_wellFormed|].
  apply Forall_cons_2; [by left | apply Forall_nil_2].
Defined.

Lemma submoduleRepo_listed (tree : string) :
  tree ∈ ["t1"; "t2"; "t3"] ->
  exists lines, lsTree Examples.submoduleRepo tree = Ok lines /\ Forall wellFormed lines.
Proof.
  intros Hin.
  apply elem_of_cons in Hin as [-> | Hin];
    [|apply elem_of_cons in Hin as [-> | Hin];
      [|apply elem_of_cons in Hin as [-> | Hin]; [|by apply elem_of_nil in Hin]]].
  - exists [Examples.row "blob" (Fake.oid "a") "README";
            Examples.row "tree" (Fake.oid "d") "dir"; ""].
    split; [vm_compute; reflexivity|].
    apply listing_wellFormed; first [reflexivity | discriminate].
  - exists [Examples.row "blob" (Fake.oid "b") "README";
            Examples.row "tree" (Fake.oid "d") "dir"; ""].
    split; [vm_compute; reflexivity|].
    apply listing_wellFormed; first [reflexivity | discriminate].
  - exists [Examples.row "commit" (Fake.oid "c") "README";
            Examples.row "tree" (Fake.oid "d") "dir"; ""].
    split; [vm_compute; reflexivity|].
    apply listing_wellFormed; first [reflexivity | discriminate].
Defined.

Lemma submoduleRepo_seen (trees : list string) (tree t s p : string) (lines : list string) :
  tree ∈ trees ->
  lsTree Examples.submoduleRepo tree = Ok lines ->
  Examples.row t s p ∈ lines ->
  String.index 0 " " t = None -> String.index 0 " " s = None ->
  seenIn Examples.submoduleRepo trees t s p.
Proof.
  intros Hin Hls Hrow Ht Hs. exists tree, lines. split; [done|]. split; [done|].
  by apply row_seen.
Defined.

Lemma varyingPaths_Ok_submodule_witness :
  exists t3 s3,
    seenIn Examples.submoduleRepo ["t1"; "t2"; "t3"] t3 s3 "README" /\ t3 <> "commit" /\
    (t3 <> "blob" \/ s3 <> Fake.oid "a") /\ (t3 <> "commit" \/ s3 <> Fake.oid "c").
Proof.
  apply (varyingPaths_Ok_submodule Examples.submoduleRepo ["t1"; "t2"; "t3"]
           [Fake.oid "a"; Fake.oid "b"; Fake.oid "c"]).
  - vm_compute. reflexivity.
  - apply (submoduleRepo_seen _ "t1" _ _ _
             [Examples.row "blob" (Fake.oid "a") "README";
              Examples.row "tree" (Fake.oid "d") "dir"; ""]);
      [pick_elem | vm_compute; reflexivity | pick_elem | reflexivity | reflexivity].
  - apply (submoduleRepo_seen _ "t3" _ _ _
             [Examples.row "commit" (Fake.oid "c") "README";
              Examples.row "tree" (Fake.oid "d") "dir"; ""]);
      [pick_elem | vm_compute; reflexivity | pick_elem | reflexivity | reflexivity].
  - left. discriminate.
  - by right.
Defined.

Lemma submoduleRepo_only (t s : string) :
  seenIn Examples.submoduleRepo ["t1"; "t3"] t s "README" ->
  (t = "blob" /\ s = Fake.oid "a") \/ (t = "commit" /\ s = Fake.oid "c").
Proof.
  intros (tree & lines & Hin & Hls & line & Hl & Hne & Hsplit).
  apply elem_of_cons in Hin as [-> | Hin];
    [|apply elem_of_cons in Hin as [-> | Hin]; [|by apply elem_of_nil in Hin]].
  - vm_compute in Hls. injection Hls as <-.
    apply elem_of_cons in Hl as [-> | Hl];
      [|apply elem_of_cons in Hl as [-> | Hl];
        [|apply elem_of_cons in Hl as [-> | Hl]; [|by apply elem_of_nil in Hl]]].
    + vm_compute in Hsplit. injection Hsplit as <- <-. by left.
    + vm_compute in Hsplit. discriminate Hsplit.
    + by destruct Hne.
  - vm_compute in Hls. injection Hls as <-.
    apply elem_of_cons in Hl as [-> | Hl];
      [|apply elem_of_cons in Hl as [-> | Hl];
        [|apply elem_of_cons in Hl as [-> | Hl]; [|by apply elem_of_nil in Hl]]].
    + vm_compute in Hsplit. injection Hsplit as <- <-. by right.
    + vm_compute in Hsplit. discriminate Hsplit.
    + by destruct Hne.
Defined.

Lemma varyingPaths_two_sided_submodule_witness :
  varyingPaths Examples.submoduleRepo ["t1"; "t3"] = Err ErrSubmodules.
Proof.
  apply (varyingPaths_two_sided_submodule Examples.submoduleRepo ["t1"; "t3"]
           "README" "blob" (Fake.oid "a") "commit" (Fake.oid "c")).
  - intros tree Hin. apply submoduleRepo_listed.
    apply elem_of_cons in Hin as [-> | Hin]; [pick_elem|].
    apply elem_of_cons in Hin as [-> | Hin]; [pick_elem | by apply elem_of_nil in Hin].
  - apply (submoduleRepo_seen _ "t1" _ _ _
             [Examples.row "blob" (Fake.oid "a") "README";
              Examples.row "tree" (Fake.oid "d") "dir"; ""]);
      [pick_elem | vm_compute; reflexivity | pick_elem | reflexivity | reflexivity].
  - apply (submoduleRepo_seen _ "t3" _ _ _
             [Examples.row "commit" (Fake.oid "c") "README";
              Examples.row "tree" (Fake.oid "d") "dir"; ""]);
      [pick_elem | vm_compute; reflexivity | pick_elem | reflexivity | reflexivity].
  - left. discriminate.
  - by right.
  - apply submoduleRepo_only.
Defined.

Lemma varyingPaths_Err_witness :
  exists e, varyingPaths Examples.submoduleRepo ["t1"; "t3"; "t2"] = Err e /\ e = ErrSubmodules.
Proof.
  exists ErrSubmodules. split; [vm_compute; reflexivity|].
  apply (varyingPaths_Err Examples.submoduleRepo ["t1"; "t3"; "t2"]).
  - intros tree Hin. apply submoduleRepo_listed.
    apply elem_of_cons in Hin as [-> | Hin]; [pick_elem|].
    apply elem_of_cons in Hin as [-> | Hin]; [pick_elem|].
    apply elem_of_cons in Hin as [-> | Hin]; [pick_elem | by apply elem_of_nil in Hin].
  - vm_compute. reflexivity.
Defined.

Lemma varyingPaths_validates_witness :
  exists lines, lsTree Examples.forkedRepo Examples.tT = Ok lines /\ Forall wellFormed lines.
Proof.
  apply (varyingPaths_validates Examples.forkedRepo
           [Examples.tM; Examples.tT; Examples.tB]
           [Fake.oid "a"; Fake.oid "b"; Fake.oid "y"; Fake.oid "x"; Fake.oid "a"; Fake.oid "x"]).
  - vm_compute. reflexivity.
  - pick_elem.
Defined.

Lemma varyingPaths_empty_iff_witness :
  @nil string = [] <-> forall path, ~ variesAt (seenIn Examples.sameRepo ["t1"; "t2"]) path.
Proof.
  apply (varyingPaths_empty_iff Examples.sameRepo ["t1"; "t2"] []).
  vm_compute. reflexivity.
Defined.

Lemma Remotes_members_witness :
  (exists e, RunTrimSplit Examples.withRemotes ["remote"; "get-url"; "--all"; "backup"] "" LF
             = Err e) /\
  exists all,
    Remotes Examples.withRemotes = Ok all /\
    forall u, u ∈ all <->
      (Contains u "github.com" = true \/ Contains u "gitlab.com" = true) /\
      exists remote urls,
        remote ∈ ["origin"; "fork"; "backup"] /\
        RunTrimSplit Examples.withRemotes ["remote"; "get-url"; "--all"; remote] "" LF
        = Ok urls /\
        u ∈ urls.
Proof.
  split; [eexists; vm_compute; reflexivity|].
  apply (Remotes_members Examples.withRemotes ["origin"; "fork"; "backup"]).
  vm_compute. reflexivity.
Defined.

Lemma Remotes_NoDup_witness : NoDup [Examples.hubURL; Examples.labURL].
Proof.
  apply (Remotes_NoDup Examples.withRemotes). vm_compute. reflexivity.
Defined.

Lemma doRequest_status_witness :
  let n := Examples.net (Examples.respStatus 503 "busy") [] in
  let e := ErrStatus 503 "/cli/root" "busy" in
  doRequest record n Examples.getRoot [] = ([(None, Some e)], 0) /\
  items n Examples.getRoot = [(None, Some e)].
Proof.
  apply (doRequest_status record (Examples.net (Examples.respStatus 503 "busy") [])
           Examples.getRoot (Examples.respStatus 503 "busy") []).
  - reflexivity.
  - simpl. lia.
Defined.

Lemma partsLoop_stops_witness :
  exists r,
    shapedMessage (Some r, None) /\
    forall (St : Type) (yield : St -> Item -> St * bool) (s : St)
           (rest : list (Result Part)) (k : nat),
      (yield s (Some r, None)).2 = false ->
      partsLoop yield (Examples.net (Examples.respWith "1") []) (Ok (Examples.jsonPart "hello") :: rest) s k
      = ((yield s (Some r, None)).1, S k).
Proof.
  apply (partsLoop_stops (Examples.net (Examples.respWith "1") []) (Examples.jsonPart "hello")).
  left. split; [reflexivity | eexists; reflexivity].
Defined.

Lemma doRequest_in_order_witness :
  let parts := [Ok (Examples.jsonPart "hello"); Ok (Examples.binaryPart "PACK")] in
  let n := Examples.net (Examples.respWith "1") parts in
  exists msgs,
    Forall2 (partMessage n) parts msgs /\
    doRequest record n Examples.getRoot [] = (msgs, 2).
Proof.
  intros parts n.
  apply (doRequest_in_order n Examples.getRoot (Examples.respWith "1") "multipart/mixed"
           (fun _ => "XX") parts); try reflexivity.
  apply Forall_cons_2; [left; split; [reflexivity | eexists; reflexivity]|].
  apply Forall_cons_2; [right; split; reflexivity|]. apply Forall_nil_2.
Defined.

Lemma range_exit_directive_witness :
  let n := Examples.exitNet [Ok (Examples.jsonPart "{}"); Ok (Examples.jsonPart "never")] in
  let done := ([WroteStdout "giving up"], Exits 2%Z, 1) in
  doRoot_range (Fake.constant "") n Examples.getRoot = done /\
  processDeconflictRequest_range (Fake.constant "") n Examples.getRoot = done.
Proof.
  intros n.
  apply (range_exit_directive (Fake.constant "") n Examples.getRoot (Examples.respWith "1")
           "multipart/mixed" (fun _ => "XX") (Examples.jsonPart "{}") Examples.directive
           [Ok (Examples.jsonPart "never")]); try reflexivity.
  by left.
Defined.

Lemma range_binary_witness :
  let n := Examples.net (Examples.respWith "1")
             [Ok (Examples.binaryPart "PACK1"); Ok (Examples.binaryPart "PACK2")] in
  processDeconflictRequest_range (Fake.constant "") n Examples.getRoot
    = ([Invoked ["unpack-objects"; "-q"] "PACK1"; Invoked ["unpack-objects"; "-q"] "PACK2"],
       Returns tt, 2) /\
  doRoot_range (Fake.constant "") n Examples.getRoot = ([], Returns tt, 2).
Proof.
  intros n.
  apply (range_binary (Fake.constant "") n Examples.getRoot (Examples.respWith "1")
           "multipart/mixed" (fun _ => "XX") ["PACK1"; "PACK2"]); try reflexivity.
Defined.

Lemma range_gate_error_witness :
  let n := Examples.net (Examples.respWith "2") [Ok (Examples.jsonPart "hello")] in
  doRoot_range (Fake.constant "") n Examples.getRoot = ([], Fails (ErrVersion "2"), 0) /\
  processDeconflictRequest_range (Fake.constant "") n Examples.getRoot
    = ([], Fails (ErrVersion "2"), 0).
Proof.
  intros n.
  apply (range_gate_error (Fake.constant "") n Examples.getRoot (ErrVersion "2")).
  intros St yield s. reflexivity.
Defined.

Lemma AbbrevRef_Ok_witness :
  (RunTrimString Examples.refsRepo ["rev-parse"; "--abbrev-ref=loose"; "HEAD"] "" = Ok "topic" /\
   "topic" <> "" /\ "topic" <> "HEAD") \/
  ResolveRef Examples.refsRepo "HEAD" = Ok "topic".
Proof.
  apply (AbbrevRef_Ok Examples.refsRepo "HEAD" "topic"). vm_compute. reflexivity.
Defined.

Lemma mainTopic_Done_witness :
  length ["main"] <= 2 /\
  ("rebase" = "merge" -> length ["main"] <= 1) /\
  (forall a, ["main"] !! 0 = Some a -> a <> "" -> "main" = a) /\
  (forall b, ["main"] !! 1 = Some b -> b <> "" -> "topic" = b).
Proof.
  apply (mainTopic_Done Examples.refsRepo "rebase" ["main"] "main" "topic").
  vm_compute. reflexivity.
Defined.

Lemma mainTopic_explicit_pair_witness :
  mainTopic Examples.refsRepo "rebase" ["origin/main"; "topic"] = Done ("origin/main", "topic").
Proof.
  apply (mainTopic_explicit_pair Examples.refsRepo "rebase" "origin/main" "topic");
    discriminate.
Defined.

Lemma mainTopic_default_witness :
  AbbrevRef Examples.refsRepo "HEAD" = Ok "topic" /\
  HasUpstream Examples.refsRepo "topic" = Ok true /\
  AbbrevRef Examples.refsRepo ("topic" +:+ "@{upstream}") = Ok "origin/main".
Proof.
  apply (mainTopic_default Examples.refsRepo "merge" "origin/main" "topic").
  vm_compute. reflexivity.
Defined.

Lemma requireCleanGitStatus_order_witness :
  (requireCleanGitStatus Examples.mergingFS (reverse filesReason) Examples.refsRepo = Done tt <->
   forall file reason,
     (file, reason) ∈ filesReason ->
     Exists Examples.mergingFS (Join Examples.mergingFS ".git" file) = false) /\
  (forall e,
     requireCleanGitStatus Examples.mergingFS (reverse filesReason) Examples.refsRepo = Fail e ->
     exists file reason,
       (file, reason) ∈ filesReason /\
       Exists Examples.mergingFS (Join Examples.mergingFS ".git" file) = true /\
       e = Errorf ("cannot proceed: " +:+ reason)).
Proof.
  apply (requireCleanGitStatus_order Examples.mergingFS (reverse filesReason)
           Examples.refsRepo ".git").
  - apply reverse_Permutation.
  - vm_compute. reflexivity.
Defined.

Lemma MergePack_unrelated_witness :
  MergePack 1 Examples.disjointRepo "A" "B" = Some (Err (ErrExec "exit status 1")) /\
  MergePack_need 1 Examples.disjointRepo "A" "B" = Some (Err (ErrExec "exit status 1")).
Proof.
  apply (MergePack_unrelated Examples.disjointRepo Examples.disjointHistories 0 "A" "B"
           1%Z "").
  - intros args stdin. reflexivity.
  - reflexivity.
  - lia.
Defined.
